(** * Shortest-path engine of task_3.py: Graph, dijkstra_with_paths, reconstruct_path

    Shallow embedding of the weighted graph, of Dijkstra's algorithm with a
    lazy-deletion priority queue, of the route reconstruction and of the
    console program that uses them, followed by the properties the
    specification states about them and by further properties of the code.

    Modelling conventions.
    - A vertex label is a Python [str]: a [string].
    - [Graph.adj], [dist] and [prev] are Python dicts keyed by labels: [gmap
      string _].  A subscript [d[k]] on a missing key raises [KeyError]: the
      functions below return [KeyError k] there.
    - A distance is a Python float that is either a finite number or
      [float("inf")]: [dval].  Finite numbers and edge weights are exact
      numbers ([Z]), as the integer minutes of [build_transport_graph]
      (weights with a common denominator are covered after scaling);
      rounding of binary floating point is outside this model.
    - [heapq] is modelled by its contract: the heap is a bag of
      [(distance, label)] tuples, [heappush] adds one tuple and [heappop]
      removes the least tuple in Python's tuple order (distance first, then
      label).  [heappop_perm] shows that the tuple popped does not depend on
      how the bag is laid out.
    - The graph argument is part of the state the loop threads, next to the
      locals [dist], [prev] and [heap], so that what the call does to it can
      be stated.
    - The two [while] loops take a [fuel] bound on their iterations and
      return [OutOfFuel] when it is exhausted. *)

From stdpp Require Import gmap strings list fin_maps fin_sets sorting pretty.
From Stdlib Require Import ZArith Lia Ascii.

Local Open Scope Z_scope.

(** ** Values and outcomes *)

Inductive dval : Type :=
| Fin (d : Z)
| Inf.

Global Instance dval_eq_dec : EqDecision dval.
Proof. solve_decision. Defined.

Inductive result (A : Type) : Type :=
| Ok (a : A)
| KeyError (k : string)
| OutOfFuel.

Arguments Ok {A} a.
Arguments KeyError {A} k.
Arguments OutOfFuel {A}.

(** An exception or an exhausted bound ends the computation. *)
Global Instance result_bind : MBind result := λ A B f r,
  match r with
  | Ok a => f a
  | KeyError k => KeyError k
  | OutOfFuel => OutOfFuel
  end.

(** [current_dist > dist[u]] *)
Definition fin_gt_dval (d : Z) (x : dval) : bool :=
  match x with
  | Fin e => e <? d
  | Inf => false
  end.

(** [new_dist < dist[v]] *)
Definition fin_lt_dval (d : Z) (x : dval) : bool :=
  match x with
  | Fin e => d <? e
  | Inf => true
  end.

(** ** class Graph *)

Abbreviation edge_list := (list (string * Z)).
Abbreviation adj_map := (gmap string (list (string * Z))).
Abbreviation dist_map := (gmap string dval).
Abbreviation prev_map := (gmap string (option string)).

Record Graph : Type := mkGraph { adj : adj_map }.

Definition Graph_init : Graph := mkGraph ∅.

Definition add_vertex (v : string) (g : Graph) : Graph :=
  match adj g !! v with
  | None => mkGraph (<[v := []]> (adj g))
  | Some _ => g
  end.

(** [self.adj[u].append(e)] *)
Definition adj_append (u : string) (e : string * Z) (g : Graph) : Graph :=
  mkGraph (alter (λ l, l ++ [e]) u (adj g)).

Definition add_edge (u v : string) (weight : Z) (undirected : bool)
    (g : Graph) : Graph :=
  let g1 := add_vertex u g in
  let g2 := add_vertex v g1 in
  let g3 := adj_append u (v, weight) g2 in
  if undirected then adj_append v (u, weight) g3 else g3.

(** ** heapq on (distance, label) tuples *)

Abbreviation entry := (Z * string)%type.

(** Python's [<=] on tuples [(float, str)]. *)
Definition entry_le (x y : entry) : Prop :=
  x.1 < y.1 ∨ (x.1 = y.1 ∧ String.le x.2 y.2).

Global Instance entry_le_dec : RelDecision entry_le.
Proof. intros x y. unfold entry_le. apply _. Defined.

Fixpoint heap_least (x : entry) (h : list entry) : entry :=
  match h with
  | [] => x
  | y :: h' => heap_least (if decide (entry_le x y) then x else y) h'
  end.

Fixpoint remove_one (x : entry) (h : list entry) : list entry :=
  match h with
  | [] => []
  | y :: h' => if decide (x = y) then h' else y :: remove_one x h'
  end.

Definition heappush (h : list entry) (x : entry) : list entry := x :: h.

Definition heappop (h : list entry) : option (entry * list entry) :=
  match h with
  | [] => None
  | x :: h' => let m := heap_least x h' in Some (m, remove_one m h)
  end.

(** ** dijkstra_with_paths *)

(** The objects the function works on: its argument [graph] and its locals
    [dist], [prev] and [heap]. *)
Record state : Type := mkState {
  graph : Graph;
  dist : dist_map;
  prev : prev_map;
  heap : list entry
}.

Definition set_heap (h : list entry) (st : state) : state :=
  mkState (graph st) (dist st) (prev st) h.

(** Lines 59-68. *)
Definition init_state (g : Graph) (start : string) : state :=
  mkState g
    (<[start := Fin 0]> ((λ _, Inf) <$> adj g))
    ((λ _, None) <$> adj g)
    [(0, start)].

(** Body of the [for v, weight in graph.adj[u]] loop, lines 80-88. *)
Definition relax_edge (u : string) (current_dist : Z) (e : string * Z)
    (st : state) : result state :=
  let '(v, weight) := e in
  let new_dist := current_dist + weight in
  match dist st !! v with
  | None => KeyError v
  | Some dv =>
      if fin_lt_dval new_dist dv
      then Ok (mkState (graph st)
                 (<[v := Fin new_dist]> (dist st))
                 (<[v := Some u]> (prev st))
                 (heappush (heap st) (new_dist, v)))
      else Ok st
  end.

Fixpoint relax_edges (u : string) (current_dist : Z) (es : edge_list)
    (st : state) : result state :=
  match es with
  | [] => Ok st
  | e :: es' =>
      st' ← relax_edge u current_dist e st;
      relax_edges u current_dist es' st'
  end.

(** The [while heap] loop, lines 70-88. *)
Fixpoint dijkstra_loop (fuel : nat) (st : state) : result state :=
  match heappop (heap st) with
  | None => Ok st
  | Some ((current_dist, u), h') =>
      match fuel with
      | O => OutOfFuel
      | S fuel' =>
          let st1 := set_heap h' st in
          match dist st1 !! u with
          | None => KeyError u
          | Some du =>
              if fin_gt_dval current_dist du
              then dijkstra_loop fuel' st1
              else
                match adj (graph st1) !! u with
                | None => KeyError u
                | Some es =>
                    st2 ← relax_edges u current_dist es st1;
                    dijkstra_loop fuel' st2
                end
          end
      end
  end.

(** The whole call, keeping the final objects. *)
Definition dijkstra_run (fuel : nat) (g : Graph) (start : string)
    : result state :=
  dijkstra_loop fuel (init_state g start).

Definition dijkstra_with_paths (fuel : nat) (g : Graph) (start : string)
    : result (dist_map * prev_map) :=
  st ← dijkstra_run fuel g start; Ok (dist st, prev st).

(** ** reconstruct_path *)

(** The [while cur is not None] loop, lines 115-119; [path] is the list in
    append order. *)
Fixpoint walk_back (fuel : nat) (prv : prev_map) (start : string)
    (cur : option string) (path : list string) : result (list string) :=
  match cur with
  | None => Ok path
  | Some c =>
      match fuel with
      | O => OutOfFuel
      | S fuel' =>
          let path' := path ++ [c] in
          if decide (c = start) then Ok path'
          else
            match prv !! c with
            | None => KeyError c
            | Some p => walk_back fuel' prv start p path'
            end
      end
  end.

Definition reconstruct_path (fuel : nat) (prv : prev_map)
    (start target : string) : result (list string) :=
  if decide (start = target) then Ok [start]
  else
    match prv !! target with
    | None => KeyError target
    | Some None => Ok []
    | Some (Some _) =>
        path ← walk_back fuel prv start (Some target) [];
        if decide (last path = Some start) then Ok (reverse path) else Ok []
    end.

(** ** Sample graphs *)

Definition triangle_graph : Graph :=
  add_vertex "D"
    (add_edge "A" "C" 4 true
       (add_edge "B" "C" 2 true
          (add_edge "A" "B" 1 true Graph_init))).

Definition build_transport_graph : Graph :=
  add_edge "Galeria Dominikanska" "Ostrów Tumski" 6 true
    (add_edge "Rynek" "Ostrów Tumski" 7 true
       (add_edge "Galeria Dominikanska" "Rynek" 4 true
          (add_edge "Dworzec Glowny" "Galeria Dominikanska" 5 true
             (add_edge "Dworzec Glowny" "Rynek" 10 true Graph_init)))).

Definition lookup_all {A} (m : gmap string A) (ks : list string)
    : list (option A) :=
  (λ k, m !! k) <$> ks.

(** ** Graph-theoretic vocabulary of the specification *)

(** [(v, w)] is an entry of [u]'s adjacency list. *)
Definition edge (g : Graph) (u v : string) (w : Z) : Prop :=
  ∃ es, adj g !! u = Some es ∧ (v, w) ∈ es.

(** A walk from [s] to a vertex, with the sum of its edge weights. *)
Inductive walk (g : Graph) (s : string) : string → Z → Prop :=
| walk_here : walk g s s 0
| walk_step u v d w :
    walk g s u d → edge g u v w → walk g s v (d + w).

Definition reachable (g : Graph) (s v : string) : Prop :=
  ∃ d, walk g s v d.

(** [d] is the least weight of a walk from [s] to [v]. *)
Definition shortest (g : Graph) (s v : string) (d : Z) : Prop :=
  walk g s v d ∧ ∀ d', walk g s v d' → d ≤ d'.

(** Every edge target is a vertex of the graph: what [add_vertex] and
    [add_edge] maintain. *)
Definition graph_wf (g : Graph) : Prop :=
  map_Forall (λ _ es, Forall (λ e : string * Z, is_Some (adj g !! e.1)) es)
    (adj g).

Definition nonneg (g : Graph) : Prop :=
  map_Forall (λ _ es, Forall (λ e : string * Z, 0 ≤ e.2) es) (adj g).

Global Instance graph_wf_dec g : Decision (graph_wf g).
Proof. unfold graph_wf. apply _. Defined.

Global Instance nonneg_dec g : Decision (nonneg g).
Proof. unfold nonneg. apply _. Defined.

(** The graphs the class can produce. *)
Inductive built : Graph → Prop :=
| built_init : built Graph_init
| built_vertex v g : built g → built (add_vertex v g)
| built_edge u v w undirected g :
    built g → built (add_edge u v w undirected g).

(** Following predecessor links from a vertex down to [start]; the list
    holds the vertices met, the vertex first and [start] last. *)
Inductive pred_chain (prv : prev_map) (start : string)
    : string → list string → Prop :=
| chain_start : pred_chain prv start start [start]
| chain_step u v l :
    v ≠ start → prv !! v = Some (Some u) →
    pred_chain prv start u l → pred_chain prv start v (v :: l).

(** The backward walk from a vertex meets a label that is not a key of
    [prv] before it meets [start] or a none marker. *)
Inductive dangling (prv : prev_map) (start : string) : string → Prop :=
| dangling_here c : c ≠ start → prv !! c = None → dangling prv start c
| dangling_step c p :
    c ≠ start → prv !! c = Some (Some p) →
    dangling prv start p → dangling prv start c.

(** Every recorded predecessor is itself a key. *)
Definition closed_prev (prv : prev_map) : Prop :=
  ∀ v u, prv !! v = Some (Some u) → is_Some (prv !! u).

(** Least weight of an entry for [v] in an adjacency list. *)
Fixpoint min_weight (v : string) (es : edge_list) : option Z :=
  match es with
  | [] => None
  | (x, w) :: es' =>
      if decide (x = v)
      then Some (match min_weight v es' with
                 | Some m => Z.min w m
                 | None => w
                 end)
      else min_weight v es'
  end.

(** Weight of the cheapest edge from [u] to [v]. *)
Definition edge_weight (g : Graph) (u v : string) : option Z :=
  es ← adj g !! u; min_weight v es.

(** Sum of the edge weights along a vertex sequence. *)
Fixpoint path_weight (g : Graph) (path : list string) : option Z :=
  match path with
  | [] => None
  | [_] => Some 0
  | u :: (v :: _) as rest =>
      w ← edge_weight g u v; d ← path_weight g rest; Some (w + d)
  end.

(** ** Loop invariant of dijkstra_with_paths

    [sd] is the set of vertices already popped with their current distance
    (the settled vertices); [cur] is the vertex whose adjacency list is being
    visited and [todo] the entries still to visit ([[]] between two
    iterations of the [while] loop). *)
Record Inv (g : Graph) (start : string) (sd : gset string) (cur : string)
    (todo : edge_list) (st : state) : Prop := mkInv {
  inv_graph : graph st = g;
  inv_dom_dist : ∀ v, is_Some (dist st !! v) ↔ is_Some (adj g !! v);
  inv_dom_prev : ∀ v, is_Some (prev st !! v) ↔ is_Some (adj g !! v);
  inv_start : dist st !! start = Some (Fin 0) ∧ prev st !! start = Some None;
  inv_walk : ∀ v d, dist st !! v = Some (Fin d) → walk g start v d;
  inv_heap : ∀ d v, (d, v) ∈ heap st →
    ∃ d', dist st !! v = Some (Fin d') ∧ d' ≤ d;
  inv_nodup : NoDup (heap st);
  inv_pending : ∀ v d, dist st !! v = Some (Fin d) →
    v ∈ sd ∨ (d, v) ∈ heap st;
  inv_relaxed : ∀ u du v w,
    u ∈ sd → dist st !! u = Some (Fin du) → edge g u v w →
    (u = cur ∧ (v, w) ∈ todo)
    ∨ ∃ dv, dist st !! v = Some (Fin dv) ∧ dv ≤ du + w;
  inv_settled : ∀ u, u ∈ sd →
    ∃ du, dist st !! u = Some (Fin du)
          ∧ ∀ d v, (d, v) ∈ heap st → du ≤ d ∧ (v = u → du < d);
  inv_prev : ∀ v u, prev st !! v = Some (Some u) →
    u ∈ sd ∧ v ≠ start
    ∧ ∃ w du, edge g u v w ∧ dist st !! u = Some (Fin du)
              ∧ dist st !! v = Some (Fin (du + w));
  inv_inf : ∀ v, dist st !! v = Some Inf → prev st !! v = Some None;
  inv_chain : ∀ v d, dist st !! v = Some (Fin d) →
    ∃ l, pred_chain (prev st) start v (v :: l) ∧ NoDup (v :: l)
         ∧ ∀ x, x ∈ l → x ∈ sd
}.

(** The invariant inside the [for] loop over the adjacency list of [cur],
    popped at distance [d]. *)
Record RInv (g : Graph) (start : string) (sd : gset string) (cur : string)
    (d : Z) (todo : edge_list) (st : state) : Prop := mkRInv {
  rinv_inv : Inv g start sd cur todo st;
  rinv_cur : cur ∈ sd;
  rinv_dist : dist st !! cur = Some (Fin d);
  rinv_todo : ∀ v w, (v, w) ∈ todo → edge g cur v w;
  rinv_below : ∀ x, x ∈ sd → ∃ dx, dist st !! x = Some (Fin dx) ∧ dx ≤ d;
  rinv_heap : ∀ d' v, (d', v) ∈ heap st → d ≤ d'
}.

(** The keys every subscript of the loop relies on: [dist] has the keys of
    [graph.adj], and the heap holds labels that are keys. *)
Definition keys_ok (g : Graph) (st : state) : Prop :=
  graph st = g
  ∧ (∀ v, is_Some (dist st !! v) ↔ is_Some (adj g !! v))
  ∧ ∀ d v, (d, v) ∈ heap st → is_Some (adj g !! v).

(** ** Further vocabulary *)

(** The graphs made of vertices and undirected edges only. *)
Inductive built_undirected : Graph → Prop :=
| undirected_init : built_undirected Graph_init
| undirected_vertex v g :
    built_undirected g → built_undirected (add_vertex v g)
| undirected_edge u v w g :
    built_undirected g → built_undirected (add_edge u v w true g).

(** [x <= y] on distances, [float("inf")] being the greatest. *)
Definition dval_le (x y : dval) : Prop :=
  match x, y with
  | Fin a, Fin b => a ≤ b
  | _, Inf => True
  | Inf, Fin _ => False
  end.

(** Total number of adjacency entries of the graph. *)
Definition num_entries (g : Graph) : nat :=
  sum_list_with (λ p : string * edge_list, length p.2) (map_to_list (adj g)).

(** Number of adjacency entries of the vertices outside [sd]. *)
Definition remaining (g : Graph) (sd : gset string) : nat :=
  sum_list_with
    (λ p : string * edge_list,
       if decide (p.1 ∈ sd) then 0%nat else length p.2)
    (map_to_list (adj g)).



(** One step of the backward walk that goes on: [a] is not [start] and
    [b] is its recorded predecessor. *)
Definition pred_link (prv : prev_map) (start : string) (a b : string)
    : Prop :=
  a ≠ start ∧ prv !! a = Some (Some b).

(** ** main

    The console program after its first statement: [g] is the graph built
    by [build_transport_graph], [start] and [target] are the values the two
    locals hold after [input(...).strip()].  The result lists what the call
    writes to the console, one element for each [print] call (its text,
    which [print] ends with a newline) and for the prompt of each [input]
    call, in the order of the calls. *)

Definition newline : string := String "010"%char "".

(** [f"{x:.0f}"] on a distance. *)
Definition format_0f (x : dval) : string :=
  match x with
  | Fin d => pretty d
  | Inf => "inf"
  end.

Definition msg_missing : string :=
  "Одна з вказаних зупинок відсутня в графі.".

Definition msg_no_route (start target : string) : string :=
  "Маршрут з '" +:+ start +:+ "' до '" +:+ target +:+ "' відсутній.".

Definition msg_route (path : list string) : string :=
  newline +:+ "Найшвидший маршрут: " +:+ String.concat " -> " path.

Definition msg_time (x : dval) : string :=
  "Час у дорозі: " +:+ format_0f x +:+ " хв".

(** Lines 157-164: the sorted list of stops and the two prompts. *)
Definition prologue (g : Graph) : list string :=
  "Доступні зупинки:"
  :: ((λ v, " -" +:+ " " +:+ v)
      <$> merge_sort String.le (elements (dom (adj g))))
  ++ [newline +:+ "Початкова зупинка: "; "Кінцева зупинка: "].

(** Lines 166-183. *)
Definition main_with (g : Graph) (fuel : nat) (start target : string)
    : result (list string) :=
  if decide (adj g !! start = None ∨ adj g !! target = None)
  then Ok (prologue g ++ [msg_missing])
  else
    r ← dijkstra_with_paths fuel g start;
    path ← reconstruct_path fuel r.2 start target;
    if decide (path = [])
    then Ok (prologue g ++ [msg_no_route start target])
    else
      match r.1 !! target with
      | None => KeyError target
      | Some dt =>
          if decide (dt = Inf)
          then Ok (prologue g ++ [msg_no_route start target])
          else Ok (prologue g ++ [msg_route path; msg_time dt])
      end.

Definition main (fuel : nat) (start target : string)
    : result (list string) :=
  main_with build_transport_graph fuel start target.

(** * Properties *)

(** ** The concrete scenarios of the specification *)

Example triangle_dist :
  (st ← dijkstra_run 20 triangle_graph "A";
   Ok (lookup_all (dist st) ["A"; "B"; "C"; "D"],
       lookup_all (prev st) ["A"; "B"; "C"; "D"]))
  = Ok ([Some (Fin 0); Some (Fin 1); Some (Fin 3); Some Inf],
        [Some None; Some (Some "A"); Some (Some "B"); Some None]).
Proof. vm_compute. reflexivity. Qed.

Example triangle_path :
  (r ← dijkstra_with_paths 20 triangle_graph "A";
   p ← reconstruct_path 20 r.2 "A" "C";
   Ok (p, path_weight triangle_graph p, r.1 !! "C"))
  = Ok (["A"; "B"; "C"], Some 3, Some (Fin 3)).
Proof. vm_compute. reflexivity. Qed.

Example triangle_isolated :
  (r ← dijkstra_with_paths 20 triangle_graph "A";
   reconstruct_path 20 r.2 "A" "D") = Ok [].
Proof. vm_compute. reflexivity. Qed.

Example triangle_wf : graph_wf triangle_graph ∧ nonneg triangle_graph.
Proof. split; apply (bool_decide_unpack _); vm_compute; exact I. Qed.

Example transport_route :
  (r ← dijkstra_with_paths 40 build_transport_graph "Dworzec Glowny";
   p ← reconstruct_path 40 r.2 "Dworzec Glowny" "Ostrów Tumski";
   Ok (p, r.1 !! "Ostrów Tumski", r.1 !! "Rynek"))
  = Ok (["Dworzec Glowny"; "Galeria Dominikanska"; "Ostrów Tumski"],
        Some (Fin 11), Some (Fin 9)).
Proof. vm_compute. reflexivity. Qed.

(** ** The result monad *)

Lemma bind_Ok {A B} (r : result A) (f : A → result B) (b : B) :
  r ≫= f = Ok b → ∃ a, r = Ok a ∧ f a = Ok b.
Proof. destruct r as [a| |]; [eauto|done..]. Qed.

(** ** Tuple order and heappop *)

Lemma entry_le_refl x : entry_le x x.
Proof. right. split; [done|]. reflexivity. Qed.

Lemma entry_le_trans x y z : entry_le x y → entry_le y z → entry_le x z.
Proof.
  unfold entry_le. intros [?|[? Hxy]] [?|[? Hyz]]; [left; lia..|].
  right. split; [lia|]. by etrans.
Qed.


Lemma entry_le_total x y : entry_le x y ∨ entry_le y x.
Proof.
  unfold entry_le.
  destruct (Z.lt_trichotomy x.1 y.1) as [?|[?|?]]; [by auto| |by auto].
  destruct (total String.le x.2 y.2); [left|right]; right; split; auto.
Qed.

Lemma entry_le_fst x y : entry_le x y → x.1 ≤ y.1.
Proof. unfold entry_le. lia. Qed.

Lemma heap_least_in x h : heap_least x h ∈ x :: h.
Proof.
  revert x. induction h as [|y h IH]; intros x; simpl; [apply list_elem_of_here|].
  pose proof (IH (if decide (entry_le x y) then x else y)) as Hin.
  apply elem_of_cons in Hin as [->|Hin].
  - case_decide; [apply list_elem_of_here|].
    apply list_elem_of_further, list_elem_of_here.
  - by do 2 apply list_elem_of_further.
Qed.

Lemma heap_least_le_first x h : entry_le (heap_least x h) x.
Proof.
  revert x. induction h as [|y h IH]; intros x; simpl.
  - apply entry_le_refl.
  - case_decide as Hxy; [apply IH|].
    eapply entry_le_trans; [apply IH|].
    destruct (entry_le_total x y); done.
Qed.

Lemma heap_least_le x h y : y ∈ x :: h → entry_le (heap_least x h) y.
Proof.
  revert x. induction h as [|z h IH]; intros x Hy; simpl.
  - apply list_elem_of_singleton in Hy as ->. apply entry_le_refl.
  - apply elem_of_cons in Hy as [Hy|Hy].
    + subst y. eapply entry_le_trans; [apply heap_least_le_first|].
      case_decide as Hxz; [apply entry_le_refl|].
      destruct (entry_le_total x z); done.
    + apply elem_of_cons in Hy as [Hy|Hy].
      * subst y. eapply entry_le_trans; [apply heap_least_le_first|].
        case_decide; [done|apply entry_le_refl].
      * apply IH. by apply list_elem_of_further.
Qed.

Lemma remove_one_perm x h : x ∈ h → h ≡ₚ x :: remove_one x h.
Proof.
  induction h as [|y h IH]; intros Hx; [by apply elem_of_nil in Hx|].
  simpl. case_decide as Hxy; [by subst|].
  apply elem_of_cons in Hx as [?|Hx]; [done|].
  rewrite (IH Hx) at 1. apply Permutation_swap.
Qed.

Lemma heappop_None h : heappop h = None ↔ h = [].
Proof. by destruct h. Qed.

Lemma heappop_Some h m h' :
  heappop h = Some (m, h') →
  m ∈ h ∧ h ≡ₚ m :: h' ∧ ∀ y, y ∈ h → entry_le m y.
Proof.
  destruct h as [|x h]; [done|]. unfold heappop.
  intros [= <- <-]. pose proof (heap_least_in x h) as Hin.
  split_and!; [done|by apply remove_one_perm|].
  intros y Hy. by apply heap_least_le.
Qed.


(** ** Graph construction *)

Lemma graph_wf_edge g u v w : graph_wf g → edge g u v w → is_Some (adj g !! v).
Proof.
  intros Hwf (es & Hes & Hin). specialize (Hwf u es Hes).
  rewrite Forall_forall in Hwf. apply (Hwf (v, w) Hin).
Qed.

Lemma graph_wf_intro g :
  (∀ u v w, edge g u v w → is_Some (adj g !! v)) → graph_wf g.
Proof.
  intros H u es Hes. apply Forall_forall. intros [v w] Hin.
  apply (H u v w). by exists es.
Qed.

Lemma nonneg_edge g u v w : nonneg g → edge g u v w → 0 ≤ w.
Proof.
  intros Hnn (es & Hes & Hin). specialize (Hnn u es Hes).
  rewrite Forall_forall in Hnn. apply (Hnn (v, w) Hin).
Qed.

Lemma add_vertex_lookup v g x :
  adj (add_vertex v g) !! x
  = if decide (x = v) then Some (default [] (adj g !! v)) else adj g !! x.
Proof.
  unfold add_vertex. destruct (adj g !! v) as [es|] eqn:Hv; simpl.
  - case_decide; by subst.
  - case_decide; subst; [apply lookup_insert_eq|by apply lookup_insert_ne].
Qed.

Lemma add_vertex_present v g : is_Some (adj (add_vertex v g) !! v).
Proof. rewrite add_vertex_lookup. case_decide; [eauto|done]. Qed.

Lemma add_vertex_keeps v g x :
  is_Some (adj g !! x) → is_Some (adj (add_vertex v g) !! x).
Proof.
  intros Hx. rewrite add_vertex_lookup. case_decide; [eauto|done].
Qed.

Lemma add_vertex_edge v g a b w : edge (add_vertex v g) a b w ↔ edge g a b w.
Proof.
  unfold edge. setoid_rewrite add_vertex_lookup. split.
  - intros (es & Hes & Hin). case_decide; [|eauto]. subst a.
    destruct (adj g !! v) as [es'|] eqn:Hv; simplify_eq/=; [eauto|].
    by apply elem_of_nil in Hin.
  - intros (es & Hes & Hin). exists es. split; [|done].
    case_decide; [|done]. subst a. by rewrite Hes.
Qed.

Lemma adj_append_lookup u e g x :
  adj (adj_append u e g) !! x
  = if decide (x = u) then (λ l, l ++ [e]) <$> adj g !! u else adj g !! x.
Proof.
  unfold adj_append. simpl. rewrite lookup_alter.
  repeat case_decide; by subst.
Qed.

Lemma adj_append_keeps u e g x :
  is_Some (adj g !! x) → is_Some (adj (adj_append u e g) !! x).
Proof.
  intros [es Hx]. rewrite adj_append_lookup. case_decide; [|eauto].
  subst. rewrite Hx. eauto.
Qed.

Lemma adj_append_edge u e g a b w :
  edge (adj_append u e g) a b w →
  edge g a b w ∨ (a = u ∧ (b, w) = e ∧ is_Some (adj g !! u)).
Proof.
  intros (es & Hes & Hin). rewrite adj_append_lookup in Hes.
  case_decide; [|left; by exists es]. subst a.
  destruct (adj g !! u) as [es'|] eqn:Hu; simplify_eq/=.
  apply elem_of_app in Hin as [Hin|Hin%list_elem_of_singleton].
  - left. by exists es'.
  - right. eauto.
Qed.

Lemma add_vertex_wf v g : graph_wf g → graph_wf (add_vertex v g).
Proof.
  intros Hwf. apply graph_wf_intro. intros a b w Hab%add_vertex_edge.
  eapply add_vertex_keeps, graph_wf_edge; eauto.
Qed.

Lemma adj_append_wf u v w g :
  is_Some (adj g !! v) → graph_wf g → graph_wf (adj_append u (v, w) g).
Proof.
  intros Hv Hwf. apply graph_wf_intro. intros a b w' Hab.
  apply adj_append_keeps.
  apply adj_append_edge in Hab as [Hab|(_ & [= -> ->] & _)]; [|done].
  eapply graph_wf_edge; eauto.
Qed.

Lemma add_edge_wf u v w undirected g :
  graph_wf g → graph_wf (add_edge u v w undirected g).
Proof.
  intros Hwf. unfold add_edge.
  assert (graph_wf (adj_append u (v, w) (add_vertex v (add_vertex u g)))).
  { apply adj_append_wf; [apply add_vertex_present|].
    by do 2 apply add_vertex_wf. }
  destruct undirected; [|done]. apply adj_append_wf; [|done].
  apply adj_append_keeps, add_vertex_keeps, add_vertex_present.
Qed.

Lemma Graph_init_wf : graph_wf Graph_init.
Proof. apply map_Forall_empty. Qed.

(** Every graph made by the class has its edge targets among its keys. *)
Lemma built_wf g : built g → graph_wf g.
Proof.
  induction 1; [apply Graph_init_wf|by apply add_vertex_wf|by apply add_edge_wf].
Qed.

Lemma relax_edges_app u d es1 es2 st :
  relax_edges u d (es1 ++ es2) st
  = (st' ← relax_edges u d es1 st; relax_edges u d es2 st').
Proof.
  revert st. induction es1 as [|e es1 IH]; intros st; [done|].
  cbn [app relax_edges mbind result_bind].
  destruct (relax_edge u d e st) as [st'| |]; [apply IH|done..].
Qed.

(** C10: an undirected self-loop is stored as two entries of the vertex's
    own adjacency list, and the relaxation loop of that vertex runs its body
    on the entry twice. *)
Theorem add_edge_self_loop_twice (v : string) (w : Z) (g : Graph) :
  adj (add_edge v v w true g) !! v
  = Some (default [] (adj g !! v) ++ [(v, w); (v, w)])
  ∧ ∀ d es st,
      relax_edges v d (es ++ [(v, w); (v, w)]) st
      = (st1 ← relax_edges v d es st;
         st2 ← relax_edge v d (v, w) st1;
         relax_edge v d (v, w) st2).
Proof.
  split.
  - unfold add_edge. rewrite !adj_append_lookup, !add_vertex_lookup.
    rewrite !decide_True by done. simpl. rewrite <-(assoc_L (++)). reflexivity.
  - intros d es st. rewrite relax_edges_app.
    destruct (relax_edges v d es st) as [st1| |]; [|done..].
    cbn [mbind result_bind relax_edges].
    destruct (relax_edge v d (v, w) st1) as [st2| |]; [|done..].
    cbn [mbind result_bind].
    by destruct (relax_edge v d (v, w) st2).
Qed.

(** ** reconstruct_path *)

(** C5: with [start == target] the result is [[start]], whatever the
    predecessor map holds. *)
Theorem reconstruct_path_same (fuel : nat) (prv : prev_map) (s : string) :
  reconstruct_path fuel prv s s = Ok [s].
Proof. unfold reconstruct_path. by rewrite decide_True. Qed.

Lemma pred_chain_last prv s v l : pred_chain prv s v l → last l = Some s.
Proof.
  induction 1 as [|u v l Hne Hv Hc IH]; [done|].
  destruct l; [inversion Hc|done].
Qed.

Lemma pred_chain_head prv s v l : pred_chain prv s v l → head l = Some v.
Proof. by destruct 1. Qed.

Lemma pred_chain_unique prv s v l1 l2 :
  pred_chain prv s v l1 → pred_chain prv s v l2 → l1 = l2.
Proof.
  intros H1. revert l2. induction H1 as [|u v l Hne Hv Hc IH]; intros l2 H2.
  - by inversion H2.
  - inversion H2 as [|u' v' l' _ Hv' Hc']; subst; [done|].
    f_equal. apply IH. congruence.
Qed.

Lemma walk_back_KeyError fuel prv s c acc k :
  walk_back fuel prv s (Some c) acc = KeyError k → dangling prv s c.
Proof.
  revert c acc. induction fuel as [|fuel IH]; intros c acc; simpl; [done|].
  case_decide as Hc; [done|].
  destruct (prv !! c) as [[p|]|] eqn:Hp.
  - intros Hw. eapply dangling_step; eauto.
  - by destruct fuel.
  - intros _. by apply dangling_here.
Qed.

Lemma dangling_walk_back prv s c :
  dangling prv s c →
  ∃ fuel k, ∀ acc, walk_back fuel prv s (Some c) acc = KeyError k.
Proof.
  induction 1 as [c Hc Hp|c p Hc Hp _ (fuel & k & IH)].
  - exists 1%nat, c. intros acc. simpl. by rewrite decide_False, Hp.
  - exists (S fuel), k. intros acc. simpl. by rewrite decide_False, Hp.
Qed.

Lemma dangling_closed prv s t :
  closed_prev prv → dangling prv s t ↔ s ≠ t ∧ prv !! t = None.
Proof.
  intros Hcl. split.
  - induction 1 as [c Hc Hp|c p Hc Hp _ [_ IH]]; [done|].
    destruct (Hcl c p Hp) as [? ?]. congruence.
  - intros [? ?]. by apply dangling_here.
Qed.

Lemma walk_back_Ok fuel prv s c acc path :
  walk_back fuel prv s (Some c) acc = Ok path → last path = Some s →
  ∃ l, pred_chain prv s c l ∧ path = acc ++ l.
Proof.
  revert c acc. induction fuel as [|fuel IH]; intros c acc; simpl; [done|].
  case_decide as Hc.
  - intros [= <-] _. subst c. exists [s]. split; [constructor|done].
  - destruct (prv !! c) as [[p|]|] eqn:Hp; [| |done].
    + intros Hw Hl. destruct (IH _ _ Hw Hl) as (l & Hch & ->).
      exists (c :: l). split; [by econstructor|]. by rewrite <-(assoc_L (++)).
    + destruct fuel; simpl; intros [= <-]; rewrite last_snoc; congruence.
Qed.

Lemma pred_chain_walk_back prv s c l :
  pred_chain prv s c l →
  ∀ fuel acc, (length l ≤ fuel)%nat →
    walk_back fuel prv s (Some c) acc = Ok (acc ++ l).
Proof.
  induction 1 as [|u v l Hne Hv Hc IH]; intros fuel acc Hf.
  - destruct fuel; simpl in *; [lia|]. by rewrite decide_True.
  - destruct fuel; simpl in *; [lia|]. rewrite decide_False, Hv by done.
    rewrite IH by lia. by rewrite <-(assoc_L (++)).
Qed.

(** The route of a vertex whose predecessor chain reaches [start]. *)
Lemma reconstruct_path_chain prv s t l fuel :
  pred_chain prv s t l → (length l ≤ fuel)%nat →
  reconstruct_path fuel prv s t = Ok (reverse l).
Proof.
  intros Hc Hf. unfold reconstruct_path. case_decide as Hst.
  - subst t. by inversion Hc.
  - inversion Hc as [|u v l' Hne Hv Hc']; subst; [done|]. rewrite Hv.
    rewrite (pred_chain_walk_back _ _ _ _ Hc) by done. simpl.
    rewrite decide_True; [done|]. apply (pred_chain_last _ _ _ _ Hc).
Qed.

Lemma reconstruct_path_dangling prv s t :
  (∃ fuel k, reconstruct_path fuel prv s t = KeyError k) ↔ dangling prv s t.
Proof.
  split.
  - intros (fuel & k & Hr). unfold reconstruct_path in Hr.
    case_decide as Hst; [done|].
    destruct (prv !! t) as [[p|]|] eqn:Hp; [|done|by apply dangling_here].
    destruct (walk_back fuel prv s (Some t) []) as [path| |] eqn:Hw;
      simpl in Hr; [by case_decide| |done].
    by apply walk_back_KeyError in Hw.
  - intros Hd. unfold reconstruct_path.
    destruct Hd as [c Hc Hp|c p Hc Hp Hd].
    + exists 0%nat, c. by rewrite decide_False, Hp.
    + destruct (dangling_walk_back prv s c) as (fuel & k & Hw);
        [by eapply dangling_step|].
      exists fuel, k. by rewrite decide_False, Hp, Hw.
Qed.

Lemma reconstruct_path_Ok fuel prv s t path :
  reconstruct_path fuel prv s t = Ok path →
  path = [] ∨ pred_chain prv s t (reverse path).
Proof.
  unfold reconstruct_path. case_decide as Hst.
  - intros [= <-]. subst t. right. constructor.
  - destruct (prv !! t) as [[p|]|] eqn:Hp; [| |done].
    + destruct (walk_back fuel prv s (Some t) []) as [l| |] eqn:Hw;
        simpl; [|done..].
      case_decide as Hl; intros [= <-]; [|by left].
      destruct (walk_back_Ok _ _ _ _ _ _ Hw Hl) as (l' & Hch & ->).
      right. by rewrite reverse_involutive.
    + intros [= <-]. by left.
Qed.

(** C6, as the code has it: the missing-key failure is raised exactly when
    the backward walk from [target] meets a label that is not a key of the
    map before it meets [start] or a none marker; for a map whose recorded
    predecessors are all keys that is exactly when [start != target] and
    [target] is not a key.  A call that returns gives the empty sequence or
    the predecessor chain from [start] to [target]. *)
Theorem reconstruct_path_failure (prv : prev_map) (s t : string) :
  ((∃ fuel k, reconstruct_path fuel prv s t = KeyError k) ↔ dangling prv s t)
  ∧ (closed_prev prv →
     ((∃ fuel k, reconstruct_path fuel prv s t = KeyError k)
      ↔ s ≠ t ∧ prv !! t = None))
  ∧ (∀ fuel path, reconstruct_path fuel prv s t = Ok path →
       path = [] ∨ pred_chain prv s t (reverse path)).
Proof.
  split_and!.
  - apply reconstruct_path_dangling.
  - intros Hcl. rewrite reconstruct_path_dangling. by apply dangling_closed.
  - intros fuel path. apply reconstruct_path_Ok.
Qed.

(** The claim as first stated fails: the target is a key, yet the lookup of
    its recorded predecessor raises. *)
Lemma reconstruct_path_failure_counterexample :
  ¬ ((∃ fuel k,
        reconstruct_path fuel ({[ "A" := Some "B" ]} : prev_map) "C" "A"
        = KeyError k)
     ↔ "C" ≠ "A" ∧ ({[ "A" := Some "B" ]} : prev_map) !! "A" = None).
Proof.
  intros [Hraise _]. destruct Hraise as [_ Hkey].
  - exists 2%nat, "B". vm_compute. reflexivity.
  - vm_compute in Hkey. discriminate Hkey.
Qed.

(** ** Frame and determinism of dijkstra_with_paths *)

Lemma relax_edge_graph u d e st st' :
  relax_edge u d e st = Ok st' → graph st' = graph st.
Proof.
  unfold relax_edge. destruct e as [v w].
  destruct (dist st !! v) as [dv|]; [|done].
  destruct (fin_lt_dval (d + w) dv); by intros [= <-].
Qed.

Lemma relax_edges_graph u d es st st' :
  relax_edges u d es st = Ok st' → graph st' = graph st.
Proof.
  revert st. induction es as [|e es IH]; intros st; simpl.
  - by intros [= <-].
  - intros (st1 & H1 & H2)%bind_Ok.
    rewrite (IH _ H2). by eapply relax_edge_graph.
Qed.

Lemma dijkstra_loop_graph fuel st st' :
  dijkstra_loop fuel st = Ok st' → graph st' = graph st.
Proof.
  revert st. induction fuel as [|fuel IH]; intros st; simpl.
  - destruct (heappop (heap st)) as [[[d u] h']|]; [done|by intros [= <-]].
  - destruct (heappop (heap st)) as [[[d u] h']|]; [|by intros [= <-]].
    destruct (dist st !! u) as [du|]; [|done].
    destruct (fin_gt_dval d du).
    + intros H%IH. by rewrite H.
    + destruct (adj (graph st) !! u) as [es|]; [|done].
      intros (st2 & H2 & H3)%bind_Ok.
      rewrite (IH _ H3). by rewrite (relax_edges_graph _ _ _ _ _ H2).
Qed.

(** C9: the graph object the call leaves behind is the one it was given:
    same keys, same adjacency lists, same order of entries. *)
Theorem dijkstra_graph_unchanged (fuel : nat) (g : Graph) (start : string)
    (st : state) :
  dijkstra_run fuel g start = Ok st → graph st = g ∧ adj (graph st) = adj g.
Proof.
  intros H%dijkstra_loop_graph. simpl in H. by rewrite H.
Qed.

Lemma dijkstra_graph_unchanged_witness :
  ∃ st, dijkstra_run 20 triangle_graph "A" = Ok st
        ∧ graph st = triangle_graph ∧ adj (graph st) = adj triangle_graph.
Proof.
  eexists. split; [vm_compute; reflexivity|].
  apply (dijkstra_graph_unchanged 20 triangle_graph "A").
  vm_compute. reflexivity.
Defined.

Lemma dijkstra_loop_mono fuel fuel' st r :
  dijkstra_loop fuel st = Ok r → (fuel ≤ fuel')%nat →
  dijkstra_loop fuel' st = Ok r.
Proof.
  revert fuel' st. induction fuel as [|fuel IH]; intros fuel' st.
  - destruct fuel'; [done|]. simpl.
    by destruct (heappop (heap st)) as [[[d u] h']|].
  - destruct fuel' as [|fuel']; [lia|]. simpl.
    destruct (heappop (heap st)) as [[[d u] h']|]; [|done].
    destruct (dist st !! u) as [du|]; [|done].
    destruct (fin_gt_dval d du).
    + intros H ?. apply IH; [done|lia].
    + destruct (adj (graph st) !! u) as [es|]; [|done].
      intros (st2 & H2 & H3)%bind_Ok ?. rewrite H2. simpl.
      apply IH; [done|lia].
Qed.

Lemma dijkstra_loop_deterministic f1 f2 st r1 r2 :
  dijkstra_loop f1 st = Ok r1 → dijkstra_loop f2 st = Ok r2 → r1 = r2.
Proof.
  intros H1 H2.
  apply (dijkstra_loop_mono _ (f1 `max` f2)%nat) in H1; [|lia].
  apply (dijkstra_loop_mono _ (f1 `max` f2)%nat) in H2; [|lia].
  congruence.
Qed.


(** ** The invariant of the main loop *)

Lemma walk_nonneg g s v d : nonneg g → walk g s v d → 0 ≤ d.
Proof.
  intros Hnn. induction 1 as [|u v d w _ IH He]; [done|].
  apply (nonneg_edge _ _ _ _ Hnn) in He. lia.
Qed.

Lemma fin_lt_dval_true nd dv :
  fin_lt_dval nd dv = true ↔ (dv = Inf ∨ ∃ e, dv = Fin e ∧ nd < e).
Proof.
  destruct dv as [e|]; simpl; [|split; auto]. rewrite Z.ltb_lt. split.
  - intros ?. right. by exists e.
  - by intros [?|(e' & [= ->] & ?)].
Qed.

Lemma fin_lt_dval_false nd dv :
  fin_lt_dval nd dv = false ↔ ∃ e, dv = Fin e ∧ e ≤ nd.
Proof.
  destruct dv as [e|]; simpl.
  - rewrite Z.ltb_ge. split; [by exists e|by intros (e' & [= ->] & ?)].
  - split; [done|by intros (e' & ? & ?)].
Qed.

Lemma fin_gt_dval_true d dv :
  fin_gt_dval d dv = true ↔ ∃ e, dv = Fin e ∧ e < d.
Proof.
  destruct dv as [e|]; simpl.
  - rewrite Z.ltb_lt. split; [by exists e|by intros (e' & [= ->] & ?)].
  - split; [done|by intros (e' & ? & ?)].
Qed.

Lemma fin_gt_dval_false d dv :
  fin_gt_dval d dv = false ↔ (dv = Inf ∨ ∃ e, dv = Fin e ∧ d ≤ e).
Proof.
  destruct dv as [e|]; simpl; [|split; auto]. rewrite Z.ltb_ge. split.
  - intros ?. right. by exists e.
  - by intros [?|(e' & [= ->] & ?)].
Qed.

Lemma init_dist_fin g start v d :
  dist (init_state g start) !! v = Some (Fin d) → v = start ∧ d = 0.
Proof.
  simpl. destruct (decide (v = start)) as [->|Hne].
  - rewrite lookup_insert_eq. by intros [= <-].
  - rewrite lookup_insert_ne, lookup_fmap by done.
    by destruct (adj g !! v).
Qed.

Lemma init_inv g start :
  is_Some (adj g !! start) → Inv g start ∅ start [] (init_state g start).
Proof.
  intros [es Hstart]. constructor.
  - done.
  - intros v. simpl. destruct (decide (v = start)) as [->|Hne].
    + rewrite lookup_insert_eq, Hstart. split; eauto.
    + rewrite lookup_insert_ne, lookup_fmap by done.
      by rewrite fmap_is_Some.
  - intros v. simpl. by rewrite lookup_fmap, fmap_is_Some.
  - simpl. by rewrite lookup_insert_eq, lookup_fmap, Hstart.
  - intros v d [-> ->]%init_dist_fin. constructor.
  - intros d v [= -> ->]%list_elem_of_singleton. exists 0.
    simpl. by rewrite lookup_insert_eq.
  - apply NoDup_singleton.
  - intros v d [-> ->]%init_dist_fin. right. simpl. apply list_elem_of_here.
  - intros u du v w Hu. by apply not_elem_of_empty in Hu.
  - intros u Hu. by apply not_elem_of_empty in Hu.
  - intros v u. simpl. rewrite lookup_fmap. by destruct (adj g !! v).
  - intros v. simpl. destruct (decide (v = start)) as [->|Hne].
    + by rewrite lookup_insert_eq.
    + rewrite lookup_insert_ne, !lookup_fmap by done.
      by destruct (adj g !! v).
  - intros v d [-> ->]%init_dist_fin. exists []. split_and!.
    + constructor.
    + apply NoDup_singleton.
    + intros x Hx. by apply elem_of_nil in Hx.
Qed.

Lemma pred_chain_insert prv s v l x p :
  x ∉ l → pred_chain prv s v l → pred_chain (<[x := p]> prv) s v l.
Proof.
  intros Hx Hc. induction Hc as [|u v l Hne Hv Hc IH]; [constructor|].
  apply not_elem_of_cons in Hx as [Hxv Hxl].
  econstructor; [done| |by apply IH]. by rewrite lookup_insert_ne.
Qed.

(** One pass through the body of the [for] loop. *)
Lemma relax_edge_inv g start sd cur d v w rest st :
  graph_wf g → nonneg g →
  RInv g start sd cur d ((v, w) :: rest) st →
  ∃ st', relax_edge cur d (v, w) st = Ok st'
         ∧ RInv g start sd cur d rest st'.
Proof.
  intros Hwf Hnn [HI Hcur Hd Htodo Hbelow Hheap].
  pose proof HI as
    [Hg Hdd Hdp Hst Hwalk Hh Hnd Hpend Hrel Hset Hprev Hinf Hch].
  assert (Hedge : edge g cur v w) by apply Htodo, list_elem_of_here.
  assert (Hw : 0 ≤ w) by by eapply nonneg_edge.
  assert (Hd0 : 0 ≤ d) by (eapply walk_nonneg; eauto).
  assert (Hvadj : is_Some (adj g !! v)) by by eapply graph_wf_edge.
  destruct (proj2 (Hdd v) Hvadj) as [dv Hdv].
  unfold relax_edge. rewrite Hdv.
  destruct (fin_lt_dval (d + w) dv) eqn:Hlt.
  - assert (Hnew : ∀ e, dist st !! v = Some (Fin e) → d + w < e).
    { intros e He. rewrite Hdv in He. injection He as ->.
      simpl in Hlt. by apply Z.ltb_lt in Hlt. }
    assert (Hvsd : v ∉ sd).
    { intros Hv. destruct (Hbelow v Hv) as (dx & Hdx & ?).
      apply Hnew in Hdx. lia. }
    assert (Hvcur : v ≠ cur) by (by intros ->).
    assert (Hvstart : v ≠ start).
    { intros ->. destruct Hst as [Hs0 _]. apply Hnew in Hs0. lia. }
    eexists. split; [done|]. constructor; [constructor|..]; simpl.
    + done.
    + intros x. destruct (decide (x = v)) as [->|Hx].
      * rewrite lookup_insert_eq. split; eauto.
      * rewrite lookup_insert_ne by done. apply Hdd.
    + intros x. destruct (decide (x = v)) as [->|Hx].
      * rewrite lookup_insert_eq. split; eauto.
      * rewrite lookup_insert_ne by done. apply Hdp.
    + by rewrite !lookup_insert_ne.
    + intros x d0. destruct (decide (x = v)) as [->|Hx].
      * rewrite lookup_insert_eq. intros [= <-].
        eapply walk_step; eauto.
      * rewrite lookup_insert_ne by done. apply Hwalk.
    + intros d0 x [[= -> ->]|Hin]%elem_of_cons.
      * exists (d + w). by rewrite lookup_insert_eq.
      * destruct (Hh _ _ Hin) as (d' & Hd' & ?).
        destruct (decide (x = v)) as [->|Hx].
        -- exists (d + w). rewrite lookup_insert_eq. split; [done|].
           apply Hnew in Hd'. lia.
        -- exists d'. by rewrite lookup_insert_ne.
    + apply NoDup_cons. split; [|done]. intros Hin.
      destruct (Hh _ _ Hin) as (d' & Hd' & ?). apply Hnew in Hd'. lia.
    + intros x d0. destruct (decide (x = v)) as [->|Hx].
      * rewrite lookup_insert_eq. intros [= <-]. right. apply list_elem_of_here.
      * rewrite lookup_insert_ne by done. intros [?|?]%Hpend; [by left|].
        right. by apply list_elem_of_further.
    + intros u du x w0 Hu. rewrite lookup_insert_ne by (by intros <-).
      intros Hdu He.
      destruct (Hrel _ _ _ _ Hu Hdu He) as [[-> Hin]|(dx & Hdx & ?)].
      * apply elem_of_cons in Hin as [[= -> ->]|Hin]; [|by left].
        right. exists (d + w). rewrite lookup_insert_eq.
        split; [done|]. rewrite Hd in Hdu. injection Hdu as ->. lia.
      * right. destruct (decide (x = v)) as [->|Hx].
        -- exists (d + w). rewrite lookup_insert_eq. split; [done|].
           apply Hnew in Hdx. lia.
        -- exists dx. by rewrite lookup_insert_ne.
    + intros u Hu. destruct (Hset u Hu) as (du & Hdu & Hall).
      exists du. rewrite lookup_insert_ne by (by intros <-).
      split; [done|]. intros d0 x [[= -> ->]|Hin]%elem_of_cons; [|by apply Hall].
      destruct (Hbelow u Hu) as (dx & Hdx & ?).
      rewrite Hdu in Hdx. injection Hdx as <-.
      split; [lia|]. by intros ->.
    + intros x u. destruct (decide (x = v)) as [->|Hx].
      * rewrite lookup_insert_eq. intros [= <-]. split_and!; [done..|].
        exists w, d. rewrite lookup_insert_ne, lookup_insert_eq by done.
        done.
      * rewrite lookup_insert_ne by done. intros Hxu.
        destruct (Hprev _ _ Hxu) as (Hu & ? & w0 & du & ? & ? & ?).
        split_and!; [done..|]. exists w0, du.
        rewrite !lookup_insert_ne by (done || by intros <-). done.
    + intros x. destruct (decide (x = v)) as [->|Hx].
      * by rewrite lookup_insert_eq.
      * rewrite !lookup_insert_ne by done. apply Hinf.
    + intros x d0. destruct (decide (x = v)) as [->|Hx].
      * intros _. destruct (Hch _ _ Hd) as (lc & Hc & Hndc & Hsub).
        assert (Hvl : v ∉ cur :: lc).
        { intros [->|?%Hsub]%elem_of_cons; done. }
        exists (cur :: lc). split_and!.
        -- econstructor; [done|by rewrite lookup_insert_eq|].
           by apply pred_chain_insert.
        -- by apply NoDup_cons.
        -- intros y [->|?]%elem_of_cons; auto.
      * rewrite lookup_insert_ne by done. intros Hx0.
        destruct (Hch _ _ Hx0) as (l & Hc & Hndl & Hsub).
        exists l. split_and!; [|done..]. apply pred_chain_insert; [|done].
        intros [->|?%Hsub]%elem_of_cons; done.
    + done.
    + by rewrite lookup_insert_ne.
    + intros x w0 Hin. by apply Htodo, list_elem_of_further.
    + intros x Hx. rewrite lookup_insert_ne by (by intros <-).
      by apply Hbelow.
    + intros d0 x [[= -> ->]|Hin]%elem_of_cons; [lia|by eapply Hheap].
  - apply fin_lt_dval_false in Hlt as (e & -> & He).
    eexists. split; [done|]. constructor; [constructor|..]; try done.
    + intros u du x w0 Hu Hdu Hux.
      destruct (Hrel _ _ _ _ Hu Hdu Hux) as [[-> Hin]|?]; [|by right].
      apply elem_of_cons in Hin as [[= -> ->]|Hin]; [|by left].
      right. exists e. split; [done|].
      rewrite Hd in Hdu. injection Hdu as ->. lia.
    + intros x w0 Hin. by apply Htodo, list_elem_of_further.
Qed.

(** The whole [for] loop. *)
Lemma relax_edges_inv g start sd cur d es st :
  graph_wf g → nonneg g →
  RInv g start sd cur d es st →
  ∃ st', relax_edges cur d es st = Ok st' ∧ RInv g start sd cur d [] st'.
Proof.
  intros Hwf Hnn. revert st. induction es as [|[v w] es IH]; intros st HR.
  - by exists st.
  - destruct (relax_edge_inv _ _ _ _ _ _ _ _ _ Hwf Hnn HR) as (st1 & H1 & HR1).
    destruct (IH _ HR1) as (st2 & H2 & HR2).
    exists st2. split; [|done]. cbn [relax_edges]. by rewrite H1.
Qed.

(** A popped tuple names a vertex with a finite recorded distance. *)
Lemma pop_dist g start sd c0 todo st d u h' :
  Inv g start sd c0 todo st → heappop (heap st) = Some ((d, u), h') →
  ∃ e, dist st !! u = Some (Fin e) ∧ e ≤ d.
Proof.
  intros HI (Hin & _ & _)%heappop_Some. by apply (inv_heap _ _ _ _ _ _ HI).
Qed.

(** A stale tuple is dropped. *)
Lemma pop_stale_inv g start sd c0 st d u h' e :
  Inv g start sd c0 [] st → heappop (heap st) = Some ((d, u), h') →
  dist st !! u = Some (Fin e) → e < d →
  Inv g start sd c0 [] (set_heap h' st).
Proof.
  intros [Hg Hdd Hdp Hst Hwalk Hh Hnd Hpend Hrel Hset Hprev Hinf Hch].
  intros (Hin & Hperm & Hle)%heappop_Some Hu Hlt.
  assert (Hsub : ∀ x, x ∈ h' → x ∈ heap st).
  { intros x Hx. rewrite Hperm. by apply list_elem_of_further. }
  constructor; simpl; try done.
  - intros d0 x Hx. by apply Hh, Hsub.
  - rewrite Hperm in Hnd. by apply NoDup_cons in Hnd as [_ ?].
  - intros x dx Hx. destruct (Hpend _ _ Hx) as [?|Hxin]; [by left|].
    right. rewrite Hperm in Hxin.
    apply elem_of_cons in Hxin as [[= -> ->]|?]; [|done].
    rewrite Hu in Hx. injection Hx as ->. lia.
  - intros x Hx. destruct (Hset x Hx) as (dx & ? & Hall).
    exists dx. split; [done|]. intros d0 y Hy. by apply Hall, Hsub.
Qed.

(** A tuple carrying the current distance of its vertex settles it. *)
Lemma pop_settle_inv g start sd c0 st d u h' e :
  Inv g start sd c0 [] st → heappop (heap st) = Some ((d, u), h') →
  dist st !! u = Some (Fin e) → d ≤ e →
  ∃ es, adj g !! u = Some es ∧ (u ∉ sd)
        ∧ RInv g start (sd ∪ {[u]}) u d es (set_heap h' st).
Proof.
  intros HI Hpop Hu Hde.
  pose proof HI as
    [Hg Hdd Hdp Hst Hwalk Hh Hnd Hpend Hrel Hset Hprev Hinf Hch].
  pose proof Hpop as (Hin & Hperm & Hle)%heappop_Some.
  assert (Hsub : ∀ x, x ∈ h' → x ∈ heap st).
  { intros x Hx. rewrite Hperm. by apply list_elem_of_further. }
  assert (e = d) as ->.
  { destruct (Hh _ _ Hin) as (e' & He' & ?).
    rewrite Hu in He'. injection He' as <-. lia. }
  assert (Husd : u ∉ sd).
  { intros Hx. destruct (Hset u Hx) as (du & Hdu & Hall).
    rewrite Hu in Hdu. injection Hdu as <-.
    destruct (Hall _ _ Hin) as [_ Hlt]. specialize (Hlt eq_refl). lia. }
  destruct (proj1 (Hdd u)) as [es Hes]; [eauto|].
  rewrite Hperm in Hnd. apply NoDup_cons in Hnd as [Hnotin Hnd'].
  assert (Hmin : ∀ d0 x, (d0, x) ∈ h' → d ≤ d0).
  { intros d0 x Hx. apply (entry_le_fst (d, u) (d0, x)), Hle, Hsub, Hx. }
  exists es. split_and!; [done..|].
  constructor; [constructor|..]; simpl; try done.
  - intros d0 x Hx. by apply Hh, Hsub.
  - intros x dx Hx. destruct (Hpend _ _ Hx) as [?|Hxin].
    + left. by apply elem_of_union_l.
    + rewrite Hperm in Hxin. apply elem_of_cons in Hxin as [[= -> ->]|?].
      * left. by apply elem_of_union_r, elem_of_singleton.
      * by right.
  - intros u0 du x w [Hu0| ->%elem_of_singleton]%elem_of_union Hdu Hux.
    + destruct (Hrel _ _ _ _ Hu0 Hdu Hux) as [[_ Hnil]|?]; [|by right].
      by apply elem_of_nil in Hnil.
    + left. split; [done|]. destruct Hux as (es' & Hes' & ?). congruence.
  - intros u0 [Hu0| ->%elem_of_singleton]%elem_of_union.
    + destruct (Hset u0 Hu0) as (dx & ? & Hall).
      exists dx. split; [done|]. intros d0 y Hy. by apply Hall, Hsub.
    + exists d. split; [done|]. intros d0 y Hy.
      split; [by eapply Hmin|]. intros ->.
      assert (d ≤ d0) by by eapply Hmin.
      assert (d ≠ d0) by (by intros ->). lia.
  - intros x p Hxp. destruct (Hprev _ _ Hxp) as (? & ? & ?).
    split_and!; [|done..]. by apply elem_of_union_l.
  - intros x dx Hx. destruct (Hch _ _ Hx) as (l & ? & ? & Hsd).
    exists l. split_and!; [done..|]. intros y Hy.
    by apply elem_of_union_l, Hsd.
  - by apply elem_of_union_r, elem_of_singleton.
  - intros x w Hx. by exists es.
  - intros x [Hx| ->%elem_of_singleton]%elem_of_union.
    + destruct (Hset x Hx) as (dx & ? & Hall). exists dx.
      split; [done|]. by apply (Hall _ _ Hin).
    + by exists d.
Qed.

(** The [while] loop ends, with the invariant and an empty heap. *)
Lemma dijkstra_loop_inv g start :
  graph_wf g → nonneg g →
  ∀ n m st sd c0,
    Inv g start sd c0 [] st →
    (size (dom (adj g) ∖ sd) ≤ n)%nat → (length (heap st) ≤ m)%nat →
    ∃ fuel st' sd' c',
      dijkstra_loop fuel st = Ok st' ∧ Inv g start sd' c' [] st'
      ∧ heap st' = [].
Proof.
  intros Hwf Hnn n. induction n as [n IHn] using lt_wf_ind.
  intros m. induction m as [m IHm] using lt_wf_ind.
  intros st sd c0 HI Hn Hm.
  destruct (heappop (heap st)) as [[[d u] h']|] eqn:Hpop.
  - destruct (pop_dist _ _ _ _ _ _ _ _ _ HI Hpop) as (e & Hu & Hed).
    pose proof Hpop as (_ & Hperm & _)%heappop_Some.
    apply Permutation_length in Hperm. simpl in Hperm.
    destruct (fin_gt_dval d (Fin e)) eqn:Hgt.
    + simpl in Hgt. apply Z.ltb_lt in Hgt.
      pose proof (pop_stale_inv _ _ _ _ _ _ _ _ _ HI Hpop Hu Hgt) as HI'.
      destruct (IHm (length h') ltac:(lia) _ _ _ HI' Hn ltac:(done))
        as (fuel & st' & sd' & c' & Hrun & ? & ?).
      exists (S fuel), st', sd', c'. split; [|done].
      simpl. rewrite Hpop. simpl. rewrite Hu.
      by rewrite (proj2 (fin_gt_dval_true d (Fin e))) by eauto.
    + simpl in Hgt. apply Z.ltb_ge in Hgt.
      destruct (pop_settle_inv _ _ _ _ _ _ _ _ _ HI Hpop Hu Hgt)
        as (es & Hes & Husd & HR).
      destruct (relax_edges_inv _ _ _ _ _ _ _ Hwf Hnn HR) as (st2 & H2 & HR2).
      assert (Hlt : (size (dom (adj g) ∖ (sd ∪ {[u]})) < n)%nat).
      { eapply Nat.lt_le_trans; [|exact Hn]. apply subset_size.
        assert (u ∈ dom (adj g)) by (apply elem_of_dom; eauto).
        split.
        - intros x [? Hx]%elem_of_difference. apply elem_of_difference.
          split; [done|]. intros ?. apply Hx. by apply elem_of_union_l.
        - intros Hsub.
          assert (u ∈ dom (adj g) ∖ (sd ∪ {[u]})) as Hu'
            by by apply Hsub, elem_of_difference.
          apply elem_of_difference in Hu' as [_ Hu'].
          apply Hu'. by apply elem_of_union_r, elem_of_singleton. }
      destruct (IHn _ Hlt (length (heap st2)) _ _ _ (rinv_inv _ _ _ _ _ _ _ HR2)
                  ltac:(done) ltac:(done))
        as (fuel & st' & sd' & c' & Hrun & ? & ?).
      exists (S fuel), st', sd', c'. split; [|done].
      simpl. rewrite Hpop. simpl. rewrite Hu.
      rewrite (proj2 (fin_gt_dval_false d (Fin e))) by eauto.
      rewrite (inv_graph _ _ _ _ _ _ HI), Hes, H2. done.
  - exists 0%nat, st, sd, c0. split_and!; [|done|by apply heappop_None].
    simpl. by rewrite Hpop.
Qed.

(** ** What the invariant gives once the heap is empty *)

Section final_state.
Context (g : Graph) (start : string) (sd : gset string) (c0 : string).
Context (st : state).
Hypothesis HI : Inv g start sd c0 [] st.
Hypothesis Hempty : heap st = [].

Lemma final_settled v d : dist st !! v = Some (Fin d) → v ∈ sd.
Proof.
  intros Hv. destruct (inv_pending _ _ _ _ _ _ HI _ _ Hv) as [?|Hin]; [done|].
  rewrite Hempty in Hin. by apply elem_of_nil in Hin.
Qed.

Lemma final_triangle u v w du :
  edge g u v w → dist st !! u = Some (Fin du) →
  ∃ dv, dist st !! v = Some (Fin dv) ∧ dv ≤ du + w.
Proof.
  intros He Hu. pose proof (final_settled _ _ Hu) as Hsd.
  destruct (inv_relaxed _ _ _ _ _ _ HI _ _ _ _ Hsd Hu He) as [[_ Hnil]|?];
    [|done].
  by apply elem_of_nil in Hnil.
Qed.

Lemma final_lower v d :
  walk g start v d → ∃ dv, dist st !! v = Some (Fin dv) ∧ dv ≤ d.
Proof.
  induction 1 as [|u v d w _ (du & Hu & ?) He].
  - exists 0. split; [|done]. apply (inv_start _ _ _ _ _ _ HI).
  - destruct (final_triangle _ _ _ _ He Hu) as (dv & ? & ?).
    exists dv. split; [done|lia].
Qed.

Lemma final_shortest v d :
  dist st !! v = Some (Fin d) → shortest g start v d.
Proof.
  intros Hv. split; [by apply (inv_walk _ _ _ _ _ _ HI)|].
  intros d' (dv & Hdv & ?)%final_lower. rewrite Hv in Hdv.
  injection Hdv as <-. done.
Qed.

Lemma final_unreachable v :
  dist st !! v = Some Inf → ¬ reachable g start v.
Proof.
  intros Hv [d (dv & Hdv & _)%final_lower]. congruence.
Qed.

Lemma final_cases v :
  is_Some (adj g !! v) →
  (∃ d, dist st !! v = Some (Fin d) ∧ shortest g start v d)
  ∨ (dist st !! v = Some Inf ∧ prev st !! v = Some None
     ∧ ¬ reachable g start v).
Proof.
  intros [[d|] Hv]%(inv_dom_dist _ _ _ _ _ _ HI).
  - left. exists d. split; [done|by apply final_shortest].
  - right. split_and!; [done| |by apply final_unreachable].
    by apply (inv_inf _ _ _ _ _ _ HI).
Qed.


Lemma final_closed_prev : closed_prev (prev st).
Proof.
  intros v u Hv.
  destruct (inv_prev _ _ _ _ _ _ HI _ _ Hv) as (_ & _ & w & du & _ & Hu & _).
  apply (inv_dom_prev _ _ _ _ _ _ HI), (inv_dom_dist _ _ _ _ _ _ HI). eauto.
Qed.

Lemma final_edge_weight u v :
  prev st !! v = Some (Some u) →
  ∃ w du, edge_weight g u v = Some w ∧ dist st !! u = Some (Fin du)
          ∧ dist st !! v = Some (Fin (du + w)).
Proof.
  intros Hv.
  destruct (inv_prev _ _ _ _ _ _ HI _ _ Hv)
    as (_ & _ & w & du & He & Hu & Hdv).
  exists w, du. split_and!; [|done..].
  assert (Hmin : ∀ w', edge g u v w' → w ≤ w').
  { intros w' He'. destruct (final_triangle _ _ _ _ He' Hu) as (dv & Hdv' & ?).
    rewrite Hdv in Hdv'. injection Hdv' as <-. lia. }
  destruct He as (es & Hes & Hin). unfold edge_weight. rewrite Hes. simpl.
  assert (Hmin' : ∀ w', (v, w') ∈ es → w ≤ w').
  { intros w' Hw'. apply Hmin. by exists es. }
  clear Hes Hmin. induction es as [|[x wx] es IH]; [by apply elem_of_nil in Hin|].
  simpl. case_decide as Hx.
  - subst x. f_equal.
    assert (w ≤ wx) by apply Hmin', list_elem_of_here.
    destruct (decide ((v, w) ∈ es)) as [Hin'|Hnin].
    + rewrite IH; [lia|done|]. intros w' ?. by apply Hmin', list_elem_of_further.
    + apply elem_of_cons in Hin as [[= ->]|?]; [|done].
      destruct (min_weight v es) as [m|] eqn:Hm; [|done].
      assert ((v, m) ∈ es) as Hvm.
      { clear -Hm. revert m Hm. induction es as [|[y wy] es IH]; [done|].
        simpl. intros m. case_decide as Hy.
        - subst y. destruct (min_weight v es) as [m'|] eqn:Hm'.
          + intros [= <-]. destruct (Z.min_spec wy m') as [[_ ->]|[_ ->]].
            * apply list_elem_of_here.
            * by apply list_elem_of_further, IH.
          + intros [= <-]. apply list_elem_of_here.
        - intros ?. by apply list_elem_of_further, IH. }
      assert (wx ≤ m) by by apply Hmin', list_elem_of_further.
      lia.
  - apply IH.
    + apply elem_of_cons in Hin as [[= ? ?]|?]; [by subst|done].
    + intros w' ?. by apply Hmin', list_elem_of_further.
Qed.
End final_state.

(** ** Routes in the final predecessor map *)

Lemma path_weight_snoc g p u v a w :
  path_weight g p = Some a → last p = Some u → edge_weight g u v = Some w →
  path_weight g (p ++ [v]) = Some (a + w).
Proof.
  intros Hp Hl Hw. revert a Hp Hl.
  induction p as [|x [|y rest] IH]; intros a Hp Hl; [discriminate Hl| |].
  - injection Hp as <-. injection Hl as ->. simpl. rewrite Hw. simpl.
    f_equal. lia.
  - change (path_weight g (x :: y :: rest))
      with (w1 ← edge_weight g x y; d1 ← path_weight g (y :: rest);
            Some (w1 + d1)) in Hp.
    change (path_weight g ((x :: y :: rest) ++ [v]))
      with (w1 ← edge_weight g x y; d1 ← path_weight g ((y :: rest) ++ [v]);
            Some (w1 + d1)).
    destruct (edge_weight g x y) as [w1|]; [|done].
    cbn [mbind option_bind] in Hp |- *.
    destruct (path_weight g (y :: rest)) as [d1|] eqn:Hd1; [|done].
    cbn [mbind option_bind] in Hp. injection Hp as <-.
    rewrite (IH d1) by done. cbn [mbind option_bind]. f_equal. lia.
Qed.

Lemma walk_back_chain prv s c l :
  pred_chain prv s c l →
  ∀ fuel acc path,
    walk_back fuel prv s (Some c) acc = Ok path → path = acc ++ l.
Proof.
  induction 1 as [|u v l Hne Hv Hc IH]; intros [|fuel] acc path; simpl;
    try done.
  - rewrite decide_True by done. by intros [= <-].
  - rewrite decide_False, Hv by done. intros ->%IH.
    by rewrite <-(assoc_L (++)).
Qed.

Lemma reconstruct_path_of_chain prv s t l fuel path :
  pred_chain prv s t l → reconstruct_path fuel prv s t = Ok path →
  path = reverse l.
Proof.
  intros Hc. unfold reconstruct_path. case_decide as Hst.
  - subst t. intros [= <-]. by inversion Hc.
  - inversion Hc as [|u v l' Hne Hv Hc']; subst; [done|]. rewrite Hv.
    intros (p & Hw & Hr)%bind_Ok.
    apply (walk_back_chain _ _ _ _ Hc) in Hw. simpl in Hw. subst p.
    rewrite decide_True in Hr by apply (pred_chain_last _ _ _ _ Hc).
    by injection Hr as <-.
Qed.

Lemma chain_path_weight g start sd c0 st :
  Inv g start sd c0 [] st → heap st = [] →
  ∀ v l d,
    pred_chain (prev st) start v l → dist st !! v = Some (Fin d) →
    path_weight g (reverse l) = Some d.
Proof.
  intros HI Hempty v l d Hc. revert d.
  induction Hc as [|u v l Hne Hv Hc IH]; intros d Hd.
  - destruct (inv_start _ _ _ _ _ _ HI) as [H0 _].
    rewrite H0 in Hd. by injection Hd as <-.
  - destruct (final_edge_weight _ _ _ _ _ HI Hempty _ _ Hv)
      as (w & du & Hw & Hu & Hd').
    rewrite Hd' in Hd. injection Hd as <-.
    rewrite reverse_cons. eapply path_weight_snoc; [by apply IH| |done].
    rewrite last_reverse. by eapply pred_chain_head.
Qed.

(** ** The call as a whole *)

Lemma dijkstra_run_final g start :
  graph_wf g → nonneg g → is_Some (adj g !! start) →
  ∃ fuel st sd c,
    dijkstra_run fuel g start = Ok st ∧ Inv g start sd c [] st
    ∧ heap st = [].
Proof.
  intros Hwf Hnn Hs.
  eapply (dijkstra_loop_inv g start Hwf Hnn _ _ _ ∅ start);
    [by apply init_inv|done..].
Qed.

(** The call returns, and whatever bound lets it return gives the maps of
    one final state that satisfies the invariant with an empty heap. *)
Lemma dijkstra_with_paths_final g start :
  graph_wf g → nonneg g → is_Some (adj g !! start) →
  ∃ st sd c,
    Inv g start sd c [] st ∧ heap st = []
    ∧ (∃ fuel, dijkstra_with_paths fuel g start = Ok (dist st, prev st))
    ∧ ∀ fuel dm pm, dijkstra_with_paths fuel g start = Ok (dm, pm) →
        dm = dist st ∧ pm = prev st.
Proof.
  intros Hwf Hnn Hs.
  destruct (dijkstra_run_final g start Hwf Hnn Hs)
    as (fuel & st & sd & c & Hrun & HI & Hempty).
  exists st, sd, c. split_and!; [done..| |].
  - exists fuel. unfold dijkstra_with_paths. by rewrite Hrun.
  - intros fuel' dm pm (st' & Hrun' & [= <- <-])%bind_Ok.
    by rewrite (dijkstra_loop_deterministic _ _ _ _ _ Hrun' Hrun).
Qed.









(** ** Start vertices known and unknown to the graph *)

(** With a start vertex that is not a key of [graph.adj], the first
    iteration pops [(0, start)] and the subscript [graph.adj[start]]
    raises. *)
Lemma dijkstra_unknown_start g start fuel :
  adj g !! start = None →
  dijkstra_with_paths (S fuel) g start = KeyError start.
Proof.
  intros Hs. unfold dijkstra_with_paths, dijkstra_run. simpl.
  rewrite decide_True by done. simpl.
  by rewrite lookup_insert_eq, Hs.
Qed.

Lemma relax_edge_keys g u d v w st :
  keys_ok g st → is_Some (adj g !! v) →
  ∃ st', relax_edge u d (v, w) st = Ok st' ∧ keys_ok g st'.
Proof.
  intros (Hg & Hdd & Hh) Hv. unfold relax_edge.
  destruct (proj2 (Hdd v) Hv) as [dv ->].
  destruct (fin_lt_dval (d + w) dv); eexists; (split; [done|]); [|done].
  split_and!; simpl; [done| |].
  - intros x. destruct (decide (x = v)) as [->|Hx].
    + rewrite lookup_insert_eq. split; eauto.
    + rewrite lookup_insert_ne by done. apply Hdd.
  - intros d0 x [[= -> ->]|Hin]%elem_of_cons; [done|by eapply Hh].
Qed.

Lemma relax_edges_keys g u d es st :
  keys_ok g st → Forall (λ e : string * Z, is_Some (adj g !! e.1)) es →
  ∃ st', relax_edges u d es st = Ok st' ∧ keys_ok g st'.
Proof.
  intros HK Hes. revert st HK.
  induction Hes as [|[v w] es Hv _ IH]; intros st HK; [by exists st|].
  destruct (relax_edge_keys g u d v w st HK Hv) as (st1 & H1 & HK1).
  destruct (IH _ HK1) as (st2 & H2 & HK2).
  exists st2. split; [|done]. cbn [relax_edges]. by rewrite H1.
Qed.

Lemma dijkstra_loop_no_KeyError g fuel st k :
  graph_wf g → keys_ok g st → dijkstra_loop fuel st ≠ KeyError k.
Proof.
  intros Hwf. revert st. induction fuel as [|fuel IH]; intros st HK; simpl.
  - by destruct (heappop (heap st)) as [[[d u] h']|].
  - destruct (heappop (heap st)) as [[[d u] h']|] eqn:Hpop; [|done].
    apply heappop_Some in Hpop as (Hin & Hperm & _).
    destruct HK as (Hg & Hdd & Hh).
    assert (HK' : keys_ok g (set_heap h' st)).
    { split_and!; [done..|]. intros d0 x Hx. apply (Hh d0).
      rewrite Hperm. by apply list_elem_of_further. }
    pose proof (Hh _ _ Hin) as Hu.
    destruct (proj2 (Hdd u) Hu) as [du ->].
    destruct (fin_gt_dval d du); [by apply IH|].
    rewrite Hg. destruct Hu as [es Hes]. rewrite Hes.
    destruct (relax_edges_keys g u d es _ HK' (Hwf u es Hes))
      as (st2 & -> & HK2).
    by apply IH.
Qed.

Lemma init_keys_ok g start :
  is_Some (adj g !! start) → keys_ok g (init_state g start).
Proof.
  intros Hs. split_and!; simpl; [done| |].
  - intros v. destruct (decide (v = start)) as [->|Hne].
    + rewrite lookup_insert_eq. split; eauto.
    + rewrite lookup_insert_ne, lookup_fmap by done.
      by rewrite fmap_is_Some.
  - by intros d v [= -> ->]%list_elem_of_singleton.
Qed.




(** ** Instances on the sample graph *)


Lemma reconstruct_path_failure_witness :
  (∃ fuel k,
     reconstruct_path fuel ({[ "B" := Some "A"; "A" := None ]} : prev_map)
       "A" "Z" = KeyError k)
  ↔ "A" ≠ "Z"
    ∧ ({[ "B" := Some "A"; "A" := None ]} : prev_map) !! "Z" = None.
Proof.
  apply (reconstruct_path_failure {[ "B" := Some "A"; "A" := None ]} "A" "Z").
  intros v u Hv.
  destruct (decide (v = "B")) as [->|HB].
  - vm_compute in Hv. injection Hv as <-. vm_compute. eexists. reflexivity.
  - rewrite lookup_insert_ne in Hv by done.
    apply lookup_singleton_Some in Hv as [_ Hv]. discriminate Hv.
Defined.

(** The predecessor maps the engine returns are closed: every recorded
    predecessor is a key, so on them the only missing key the route
    reconstruction can meet is the target. *)
Lemma dijkstra_prev_closed g start fuel dm pm :
  graph_wf g → nonneg g → is_Some (adj g !! start) →
  dijkstra_with_paths fuel g start = Ok (dm, pm) → closed_prev pm.
Proof.
  intros Hwf Hnn Hs Hrun.
  destruct (dijkstra_with_paths_final g start Hwf Hnn Hs)
    as (st & sd & c & HI & Hempty & _ & Huniq).
  destruct (Huniq _ _ _ Hrun) as [_ Hpm]. rewrite Hpm.
  by eapply final_closed_prev.
Qed.

(** * Further properties of the code *)

(** ** Graph construction, continued *)

Lemma nonneg_intro g : (∀ u v w, edge g u v w → 0 ≤ w) → nonneg g.
Proof.
  intros H u es Hes. apply Forall_forall. intros [v w] Hin.
  apply (H u v w). by exists es.
Qed.

Lemma add_vertex_same v g : is_Some (adj g !! v) → add_vertex v g = g.
Proof. intros [es Hv]. unfold add_vertex. by rewrite Hv. Qed.

Lemma adj_append_edge_iff u e g a b w :
  is_Some (adj g !! u) →
  edge (adj_append u e g) a b w ↔ edge g a b w ∨ (a = u ∧ (b, w) = e).
Proof.
  intros [es Hu]. split.
  - intros [?|(? & ? & _)]%adj_append_edge; auto.
  - intros [(es' & Ha & Hin)|[-> <-]]; unfold edge;
      rewrite adj_append_lookup.
    + case_decide as Hau; [|by exists es']. subst a.
      rewrite Ha. eexists. split; [done|].
      apply elem_of_app. by left.
    + rewrite decide_True, Hu by done. eexists. split; [done|].
      apply elem_of_app. right. by apply list_elem_of_singleton.
Qed.

Lemma add_edge_directed_edge u v w g a b c :
  edge (add_edge u v w false g) a b c
  ↔ edge g a b c ∨ (a = u ∧ b = v ∧ c = w).
Proof.
  unfold add_edge. rewrite adj_append_edge_iff, !add_vertex_edge.
  - split; intros [?|H]; auto; right.
    + destruct H as [-> [= -> ->]]. done.
    + destruct H as (-> & -> & ->). done.
  - apply add_vertex_keeps, add_vertex_present.
Qed.

Lemma add_vertex_dom v g :
  dom (adj (add_vertex v g)) = {[v]} ∪ dom (adj g).
Proof.
  apply set_eq. intros x.
  rewrite elem_of_union, elem_of_singleton, !elem_of_dom, add_vertex_lookup.
  case_decide; split; eauto. intros [?|?]; done.
Qed.

Lemma adj_append_dom u e g : dom (adj (adj_append u e g)) = dom (adj g).
Proof. apply dom_alter_L. Qed.

(** X1: [add_vertex] adds the key and nothing else: the keys grow by [v],
    no adjacency entry appears or disappears, and a second call changes
    nothing. *)
Theorem add_vertex_idempotent (v : string) (g : Graph) :
  dom (adj (add_vertex v g)) = {[v]} ∪ dom (adj g)
  ∧ (∀ a b w, edge (add_vertex v g) a b w ↔ edge g a b w)
  ∧ add_vertex v (add_vertex v g) = add_vertex v g.
Proof.
  split_and!.
  - apply add_vertex_dom.
  - intros a b w. apply add_vertex_edge.
  - apply add_vertex_same, add_vertex_present.
Qed.

(** X2: a directed [add_edge] makes both endpoints keys, appends the entry
    at the end of the source's list and changes no other entry. *)
Theorem add_edge_directed_spec (u v : string) (w : Z) (g : Graph) :
  dom (adj (add_edge u v w false g)) = {[u; v]} ∪ dom (adj g)
  ∧ adj (add_edge u v w false g) !! u
    = Some (default [] (adj g !! u) ++ [(v, w)])
  ∧ ∀ a b c, edge (add_edge u v w false g) a b c
             ↔ edge g a b c ∨ (a = u ∧ b = v ∧ c = w).
Proof.
  split_and!.
  - unfold add_edge. rewrite adj_append_dom, !add_vertex_dom.
    apply set_eq. intros x.
    rewrite !elem_of_union, !elem_of_singleton. tauto.
  - unfold add_edge. rewrite adj_append_lookup, decide_True by done.
    destruct (decide (u = v)) as [<-|Huv].
    + by rewrite !add_vertex_lookup, !decide_True.
    + rewrite add_vertex_lookup, decide_False by done.
      by rewrite add_vertex_lookup, decide_True.
  - intros a b c. apply add_edge_directed_edge.
Qed.

Lemma add_edge_true_false u v w g :
  add_edge u v w true g = add_edge v u w false (add_edge u v w false g).
Proof.
  unfold add_edge.
  set (g3 := adj_append u (v, w) (add_vertex v (add_vertex u g))).
  assert (Hu : is_Some (adj g3 !! u)).
  { apply adj_append_keeps, add_vertex_keeps, add_vertex_present. }
  assert (Hv : is_Some (adj g3 !! v)).
  { apply adj_append_keeps, add_vertex_present. }
  rewrite (add_vertex_same v g3 Hv). by rewrite (add_vertex_same u g3 Hu).
Qed.

Lemma add_edge_undirected_edge u v w g a b c :
  edge (add_edge u v w true g) a b c
  ↔ edge g a b c ∨ (a = u ∧ b = v ∧ c = w) ∨ (a = v ∧ b = u ∧ c = w).
Proof.
  rewrite add_edge_true_false, !add_edge_directed_edge. tauto.
Qed.

(** X3: an undirected [add_edge] is the directed one followed by the
    directed one in the opposite direction; it adds the entry in both
    directions and nothing else. *)
Theorem add_edge_undirected_two_directed (u v : string) (w : Z) (g : Graph) :
  add_edge u v w true g = add_edge v u w false (add_edge u v w false g)
  ∧ ∀ a b c, edge (add_edge u v w true g) a b c
             ↔ edge g a b c ∨ (a = u ∧ b = v ∧ c = w)
               ∨ (a = v ∧ b = u ∧ c = w).
Proof.
  split; [apply add_edge_true_false|].
  intros a b c. apply add_edge_undirected_edge.
Qed.

Lemma Graph_init_no_edge a b w : ¬ edge Graph_init a b w.
Proof. intros (es & Hes & _). simpl in Hes. by rewrite lookup_empty in Hes. Qed.

(** X4: [add_edge] stores the weight it is given without checking its sign:
    the graph has only non-negative weights after the call exactly when it
    had before and the new weight is non-negative. *)
Theorem add_edge_nonneg_iff (u v : string) (w : Z) (undirected : bool)
    (g : Graph) :
  nonneg (add_edge u v w undirected g) ↔ nonneg g ∧ 0 ≤ w.
Proof.
  split.
  - intros Hnn. split.
    + apply nonneg_intro. intros a b c He.
      apply (nonneg_edge (add_edge u v w undirected g) a b c Hnn).
      destruct undirected.
      * apply add_edge_undirected_edge. by left.
      * apply add_edge_directed_edge. by left.
    + apply (nonneg_edge (add_edge u v w undirected g) u v w Hnn).
      destruct undirected.
      * apply add_edge_undirected_edge. right. by left.
      * apply add_edge_directed_edge. by right.
  - intros [Hnn Hw]. apply nonneg_intro. intros a b c He.
    destruct undirected.
    + apply add_edge_undirected_edge in He
        as [He|[(_ & _ & ->)|(_ & _ & ->)]]; [|done..].
      by eapply nonneg_edge.
    + apply add_edge_directed_edge in He as [He|(_ & _ & ->)]; [|done].
      by eapply nonneg_edge.
Qed.

(** X5: in a graph made of vertices and undirected edges only, every
    adjacency entry has its mirror entry with the same weight. *)
Theorem built_undirected_symmetric (g : Graph) :
  built_undirected g → ∀ u v w, edge g u v w ↔ edge g v u w.
Proof.
  induction 1 as [|x g _ IH|a b c g _ IH]; intros u v w.
  - split; intros []%Graph_init_no_edge.
  - by rewrite !add_vertex_edge.
  - rewrite !add_edge_undirected_edge, IH. tauto.
Qed.

Lemma built_undirected_symmetric_witness :
  edge build_transport_graph "Rynek" "Dworzec Glowny" 10
  ↔ edge build_transport_graph "Dworzec Glowny" "Rynek" 10.
Proof.
  apply (built_undirected_symmetric build_transport_graph).
  repeat constructor.
Defined.

(** X6: in every graph the class can produce, both endpoints of an
    adjacency entry are keys of [adj]. *)
Theorem built_endpoints_are_keys (g : Graph) (u v : string) (w : Z) :
  built g → edge g u v w → is_Some (adj g !! u) ∧ is_Some (adj g !! v).
Proof.
  intros Hb He. split.
  - destruct He as (es & Hes & _). eauto.
  - eapply graph_wf_edge; [by apply built_wf|done].
Qed.

Lemma built_endpoints_are_keys_witness :
  is_Some (adj triangle_graph !! "B") ∧ is_Some (adj triangle_graph !! "C").
Proof.
  apply (built_endpoints_are_keys triangle_graph "B" "C" 2).
  - repeat constructor.
  - eexists. split; [vm_compute; reflexivity|].
    apply list_elem_of_further, list_elem_of_here.
Defined.

(** ** Distances only decrease *)

Lemma dval_le_refl x : dval_le x x.
Proof. destruct x; simpl; [lia|done]. Qed.

Lemma dval_le_trans x y z : dval_le x y → dval_le y z → dval_le x z.
Proof. destruct x, y, z; simpl; try done; lia. Qed.

Lemma relax_edge_dist_le u d e st st' :
  relax_edge u d e st = Ok st' →
  ∀ v dv, dist st !! v = Some dv →
    ∃ dv', dist st' !! v = Some dv' ∧ dval_le dv' dv.
Proof.
  unfold relax_edge. destruct e as [x w].
  destruct (dist st !! x) as [dx|] eqn:Hx; [|done].
  destruct (fin_lt_dval (d + w) dx) eqn:Hlt; intros [= <-] v dv Hv.
  - simpl. destruct (decide (v = x)) as [->|Hne].
    + rewrite lookup_insert_eq. eexists. split; [done|].
      rewrite Hx in Hv. injection Hv as <-.
      destruct dx as [e|]; simpl in *; [|done].
      apply Z.ltb_lt in Hlt. lia.
    + rewrite lookup_insert_ne by done. exists dv.
      split; [done|apply dval_le_refl].
  - exists dv. split; [done|apply dval_le_refl].
Qed.

Lemma relax_edges_dist_le u d es st st' :
  relax_edges u d es st = Ok st' →
  ∀ v dv, dist st !! v = Some dv →
    ∃ dv', dist st' !! v = Some dv' ∧ dval_le dv' dv.
Proof.
  revert st. induction es as [|e es IH]; intros st.
  - intros [= <-] v dv Hv. exists dv. split; [done|apply dval_le_refl].
  - cbn [relax_edges]. intros (st1 & H1 & H2)%bind_Ok v dv Hv.
    destruct (relax_edge_dist_le _ _ _ _ _ H1 _ _ Hv) as (d1 & Hd1 & ?).
    destruct (IH _ H2 _ _ Hd1) as (d2 & Hd2 & ?).
    exists d2. split; [done|]. by eapply dval_le_trans.
Qed.

(** X7: over the [while] loop a recorded distance never increases and no
    key of [dist] disappears, whatever the weights. *)
Theorem dijkstra_loop_dist_le (fuel : nat) (st st' : state) (v : string)
    (dv : dval) :
  dijkstra_loop fuel st = Ok st' → dist st !! v = Some dv →
  ∃ dv', dist st' !! v = Some dv' ∧ dval_le dv' dv.
Proof.
  revert st dv. induction fuel as [|fuel IH]; intros st dv; simpl.
  - destruct (heappop (heap st)) as [[[d u] h']|]; [done|].
    intros [= <-] Hv. exists dv. split; [done|apply dval_le_refl].
  - destruct (heappop (heap st)) as [[[d u] h']|].
    2:{ intros [= <-] Hv. exists dv. split; [done|apply dval_le_refl]. }
    destruct (dist st !! u) as [du|]; [|done].
    destruct (fin_gt_dval d du).
    + intros Hrun Hv. by apply (IH _ _ Hrun).
    + destruct (adj (graph st) !! u) as [es|]; [|done].
      intros (st2 & H2 & H3)%bind_Ok Hv.
      destruct (relax_edges_dist_le _ _ _ _ _ H2 v dv) as (d2 & Hd2 & ?);
        [done|].
      destruct (IH _ _ H3 Hd2) as (d3 & Hd3 & ?).
      exists d3. split; [done|]. by eapply dval_le_trans.
Qed.

Lemma dijkstra_loop_dist_le_witness :
  ∃ st' dv',
    dijkstra_loop 20 (init_state triangle_graph "A") = Ok st'
    ∧ dist st' !! "C" = Some dv' ∧ dval_le dv' Inf.
Proof.
  assert (∃ st', dijkstra_loop 20 (init_state triangle_graph "A") = Ok st')
    as [st' Hrun] by (eexists; vm_compute; reflexivity).
  destruct (dijkstra_loop_dist_le 20 _ st' "C" Inf Hrun) as (dv' & Hdv' & Hle).
  - vm_compute. reflexivity.
  - by exists st', dv'.
Defined.

(** ** When the missing-key failure is raised *)

(** X8: on a graph whose edge targets are keys, the call raises exactly
    when the start vertex is not a key of [graph.adj], and the key reported
    is the start vertex. *)
Theorem dijkstra_KeyError_iff (g : Graph) (start k : string) :
  graph_wf g →
  (∃ fuel, dijkstra_with_paths fuel g start = KeyError k)
  ↔ adj g !! start = None ∧ k = start.
Proof.
  intros Hwf. split.
  - intros [fuel Hrun]. destruct (adj g !! start) as [es|] eqn:Hs.
    + exfalso. unfold dijkstra_with_paths, dijkstra_run in Hrun.
      destruct (dijkstra_loop fuel (init_state g start)) as [st|k'|] eqn:Hl;
        [done| |done].
      eapply (dijkstra_loop_no_KeyError g); [done| |exact Hl].
      apply init_keys_ok. by rewrite Hs.
    + split; [done|]. destruct fuel as [|fuel]; [done|].
      rewrite dijkstra_unknown_start in Hrun by done. by injection Hrun.
  - intros [Hs ->]. exists 1%nat. by apply dijkstra_unknown_start.
Qed.

Lemma dijkstra_KeyError_iff_witness :
  (∃ fuel, dijkstra_with_paths fuel triangle_graph "Z" = KeyError "Z")
  ↔ adj triangle_graph !! "Z" = None ∧ "Z" = "Z".
Proof.
  apply (dijkstra_KeyError_iff triangle_graph "Z" "Z").
  apply (bool_decide_unpack _). vm_compute. exact I.
Defined.

(** ** A bound on the number of iterations *)

Lemma remaining_empty g : remaining g ∅ = num_entries g.
Proof.
  unfold remaining, num_entries.
  induction (map_to_list (adj g)) as [|p l IH]; [done|].
  simpl. rewrite IH. by rewrite decide_False by apply not_elem_of_empty.
Qed.

Lemma sum_remaining_notin (l : list (string * edge_list))
    (sd : gset string) u :
  u ∉ l.*1 →
  sum_list_with
    (λ p : string * edge_list,
       if decide (p.1 ∈ sd ∪ {[u]}) then 0%nat else length p.2) l
  = sum_list_with
      (λ p : string * edge_list,
         if decide (p.1 ∈ sd) then 0%nat else length p.2) l.
Proof.
  induction l as [|[x es] l IH]; intros Hu; [done|].
  rewrite fmap_cons in Hu. apply not_elem_of_cons in Hu as [Hux Hul].
  simpl in *. rewrite (IH Hul). f_equal.
  destruct (decide (x ∈ sd)) as [Hx|Hx].
  - rewrite decide_True; [done|]. by apply elem_of_union_l.
  - rewrite decide_False; [done|].
    intros [?|?%elem_of_singleton]%elem_of_union; done.
Qed.

Lemma sum_remaining_settle (l : list (string * edge_list))
    (sd : gset string) u es :
  NoDup (l.*1) → (u, es) ∈ l → u ∉ sd →
  (sum_list_with
     (λ p : string * edge_list,
        if decide (p.1 ∈ sd ∪ {[u]}) then 0%nat else length p.2) l
   + length es
   = sum_list_with
       (λ p : string * edge_list,
          if decide (p.1 ∈ sd) then 0%nat else length p.2) l)%nat.
Proof.
  induction l as [|[x xs] l IH]; intros Hnd Hin Hu;
    [by apply elem_of_nil in Hin|].
  rewrite fmap_cons in Hnd. apply NoDup_cons in Hnd as [Hx Hnd].
  apply elem_of_cons in Hin as [[= <- <-]|Hin]; simpl in *.
  - rewrite (sum_remaining_notin l sd u Hx).
    rewrite decide_True by (by apply elem_of_union_r, elem_of_singleton).
    rewrite decide_False by done. lia.
  - rewrite <-(IH Hnd Hin Hu).
    assert (x ≠ u).
    { intros ->. apply Hx. apply list_elem_of_fmap. by exists (u, es). }
    destruct (decide (x ∈ sd)) as [Hxs|Hxs].
    + rewrite decide_True by (by apply elem_of_union_l). lia.
    + rewrite decide_False; [lia|].
      intros [?|?%elem_of_singleton]%elem_of_union; done.
Qed.

Lemma remaining_settle g sd u es :
  adj g !! u = Some es → u ∉ sd →
  (remaining g (sd ∪ {[u]}) + length es = remaining g sd)%nat.
Proof.
  intros Hu Hsd. unfold remaining. apply sum_remaining_settle; [|by apply elem_of_map_to_list|done].
  apply NoDup_fst_map_to_list.
Qed.

Lemma relax_edge_heap_length u d e st st' :
  relax_edge u d e st = Ok st' →
  (length (heap st') ≤ S (length (heap st)))%nat.
Proof.
  unfold relax_edge. destruct e as [v w].
  destruct (dist st !! v) as [dv|]; [|done].
  destruct (fin_lt_dval (d + w) dv); intros [= <-]; simpl; lia.
Qed.

Lemma relax_edges_heap_length u d es st st' :
  relax_edges u d es st = Ok st' →
  (length (heap st') ≤ length (heap st) + length es)%nat.
Proof.
  revert st. induction es as [|e es IH]; intros st.
  - intros [= <-]. simpl. lia.
  - cbn [relax_edges]. intros (st1 & H1 & H2)%bind_Ok.
    apply relax_edge_heap_length in H1. apply IH in H2. simpl. lia.
Qed.

(** Every iteration either drops a stale tuple or settles a vertex, whose
    adjacency entries are then the only tuples it can push. *)
Lemma dijkstra_loop_bounded g start :
  graph_wf g → nonneg g →
  ∀ fuel st sd c0,
    Inv g start sd c0 [] st →
    (length (heap st) + remaining g sd ≤ fuel)%nat →
    ∃ st', dijkstra_loop fuel st = Ok st'.
Proof.
  intros Hwf Hnn fuel. induction fuel as [|fuel IH]; intros st sd c0 HI Hm.
  - destruct (heap st) as [|x h] eqn:Hh; [|simpl in Hm; lia].
    exists st. simpl. by rewrite Hh.
  - destruct (heappop (heap st)) as [[[d u] h']|] eqn:Hpop.
    2:{ exists st. simpl. by rewrite Hpop. }
    destruct (pop_dist _ _ _ _ _ _ _ _ _ HI Hpop) as (e & Hu & Hed).
    pose proof Hpop as (_ & Hperm & _)%heappop_Some.
    apply Permutation_length in Hperm. simpl in Hperm.
    simpl. rewrite Hpop. simpl. rewrite Hu.
    destruct (fin_gt_dval d (Fin e)) eqn:Hgt.
    + simpl in Hgt. apply Z.ltb_lt in Hgt.
      pose proof (pop_stale_inv _ _ _ _ _ _ _ _ _ HI Hpop Hu Hgt) as HI'.
      apply (IH _ _ _ HI'). simpl. lia.
    + simpl in Hgt. apply Z.ltb_ge in Hgt.
      destruct (pop_settle_inv _ _ _ _ _ _ _ _ _ HI Hpop Hu Hgt)
        as (es & Hes & Husd & HR).
      destruct (relax_edges_inv _ _ _ _ _ _ _ Hwf Hnn HR) as (st2 & H2 & HR2).
      rewrite (inv_graph _ _ _ _ _ _ HI), Hes, H2. simpl.
      apply (IH _ _ _ (rinv_inv _ _ _ _ _ _ _ HR2)).
      pose proof (relax_edges_heap_length _ _ _ _ _ H2) as Hlen.
      pose proof (remaining_settle g sd u es Hes Husd). simpl in Hlen. lia.
Qed.



(** ** Weights of any sign *)







(** ** Predecessors and routes of the returned maps *)



(** X12: on the returned predecessor map the route reconstruction returns
    for every target that is a vertex of the graph; the route is empty
    exactly when the target has the infinite distance, and a route visits no
    vertex twice. *)
Theorem dijkstra_route (g : Graph) (start target : string) (fuel : nat)
    (dm : dist_map) (pm : prev_map) :
  graph_wf g → nonneg g → is_Some (adj g !! start) →
  dijkstra_with_paths fuel g start = Ok (dm, pm) →
  is_Some (adj g !! target) →
  (∃ fuel' path, reconstruct_path fuel' pm start target = Ok path)
  ∧ ∀ fuel' path, reconstruct_path fuel' pm start target = Ok path →
      NoDup path ∧ (path = [] ↔ dm !! target = Some Inf).
Proof.
  intros Hwf Hnn Hs Hrun Ht.
  destruct (dijkstra_with_paths_final g start Hwf Hnn Hs)
    as (st & sd & c & HI & Hempty & _ & Huniq).
  destruct (Huniq _ _ _ Hrun) as [-> ->].
  apply (inv_dom_dist _ _ _ _ _ _ HI) in Ht as [[d|] Hd].
  - destruct (inv_chain _ _ _ _ _ _ HI _ _ Hd) as (l & Hc & Hnd & _).
    split.
    + exists (length (target :: l)), (reverse (target :: l)).
      by apply reconstruct_path_chain.
    + intros fuel' path ->%(reconstruct_path_of_chain _ _ _ _ _ _ Hc).
      split; [by rewrite reverse_Permutation|]. rewrite Hd. split; [|done].
      intros Hnil%(f_equal length). rewrite length_reverse in Hnil. done.
  - assert (Hne : start ≠ target).
    { intros <-. destruct (inv_start _ _ _ _ _ _ HI) as [H0 _]. congruence. }
    pose proof (inv_inf _ _ _ _ _ _ HI _ Hd) as Hp.
    assert (Hr : ∀ fuel', reconstruct_path fuel' (prev st) start target = Ok []).
    { intros fuel'. unfold reconstruct_path. by rewrite decide_False, Hp. }
    split; [by exists 0%nat, []|].
    intros fuel' path Hpath. rewrite Hr in Hpath. injection Hpath as <-.
    split; [apply NoDup_nil_2|done].
Qed.

Lemma dijkstra_route_witness :
  ∃ dm pm,
    dijkstra_with_paths 20 triangle_graph "A" = Ok (dm, pm)
    ∧ (∃ fuel' path, reconstruct_path fuel' pm "A" "D" = Ok path)
    ∧ ∀ fuel' path, reconstruct_path fuel' pm "A" "D" = Ok path →
        NoDup path ∧ (path = [] ↔ dm !! "D" = Some Inf).
Proof.
  eexists _, _. split; [vm_compute; reflexivity|].
  apply (dijkstra_route triangle_graph "A" "D" 20).
  - apply (bool_decide_unpack _). vm_compute. exact I.
  - apply (bool_decide_unpack _). vm_compute. exact I.
  - vm_compute. eexists. reflexivity.
  - vm_compute. reflexivity.
  - vm_compute. eexists. reflexivity.
Defined.

(** ** Undirected graphs *)


Lemma built_undirected_edge_sym g :
  built_undirected g → ∀ u v w, edge g u v w → edge g v u w.
Proof.
  induction 1 as [|x g _ IH|a b c g _ IH]; intros u v w.
  - by intros []%Graph_init_no_edge.
  - rewrite !add_vertex_edge. apply IH.
  - rewrite !add_edge_undirected_edge.
    intros [?%IH|[(-> & -> & ->)|(-> & -> & ->)]]; auto.
Qed.

Lemma walk_cons g s u t w d :
  edge g s u w → walk g u t d → walk g s t (w + d).
Proof.
  intros He. induction 1 as [|x t d w' _ IH He'].
  - replace (w + 0) with (0 + w) by lia. eapply walk_step; [constructor|done].
  - replace (w + (d + w')) with (w + d + w') by lia. by eapply walk_step.
Qed.

Lemma walk_reverse g s t d :
  (∀ u v w, edge g u v w → edge g v u w) → walk g s t d → walk g t s d.
Proof.
  intros Hsym. induction 1 as [|u t d w _ IH He]; [constructor|].
  replace (d + w) with (w + d) by lia. eapply walk_cons; [|done].
  by apply Hsym.
Qed.



(** ** Predecessor maps with a cycle *)

Lemma pred_link_walk_back prv s a b fuel acc :
  pred_link prv s a b →
  walk_back (S fuel) prv s (Some a) acc
  = walk_back fuel prv s (Some b) (acc ++ [a]).
Proof. intros [Ha Hb]. simpl. by rewrite decide_False, Hb. Qed.

Lemma pred_link_cycle_next prv s a b :
  pred_link prv s a b → tc (pred_link prv s) a a → tc (pred_link prv s) b b.
Proof.
  intros Hab Hc. inversion Hc as [? ? Hab'|? b' ? Hab' Hba]; subst.
  - destruct Hab as [_ Hb], Hab' as [_ Hb']. rewrite Hb in Hb'.
    by injection Hb' as ->.
  - destruct Hab as [Hs Hb], Hab' as [_ Hb']. rewrite Hb in Hb'.
    injection Hb' as <-. eapply tc_r; [done|]. by split.
Qed.

Lemma cycle_walk_back prv s fuel a acc :
  tc (pred_link prv s) a a → walk_back fuel prv s (Some a) acc = OutOfFuel.
Proof.
  revert a acc. induction fuel as [|fuel IH]; intros a acc Hc; [done|].
  assert (∃ b, pred_link prv s a b) as [b Hab].
  { inversion Hc; subst; eauto. }
  rewrite (pred_link_walk_back _ _ _ _ _ _ Hab).
  apply IH. by eapply pred_link_cycle_next.
Qed.

Lemma rtc_cycle_walk_back prv s t c :
  rtc (pred_link prv s) t c → tc (pred_link prv s) c c →
  ∀ fuel acc, walk_back fuel prv s (Some t) acc = OutOfFuel.
Proof.
  induction 1 as [c|t b c Htb _ IH]; intros Hc fuel acc.
  - by apply cycle_walk_back.
  - destruct fuel as [|fuel]; [done|].
    rewrite (pred_link_walk_back _ _ _ _ _ _ Htb). by apply IH.
Qed.

(** X14: when the backward walk from [target] runs into a cycle of
    predecessor links that does not pass through [start], the loop of
    [reconstruct_path] never ends: no iteration bound lets it return or
    raise. *)
Theorem reconstruct_path_cycle_hangs (prv : prev_map) (s t c : string)
    (fuel : nat) :
  rtc (pred_link prv s) t c → tc (pred_link prv s) c c →
  reconstruct_path fuel prv s t = OutOfFuel.
Proof.
  intros Htc Hc.
  assert (∃ b, pred_link prv s t b) as (b & Hts & Hb).
  { inversion Htc; subst; [inversion Hc; subst|]; eauto. }
  unfold reconstruct_path. rewrite decide_False, Hb by done.
  by rewrite (rtc_cycle_walk_back _ _ _ _ Htc Hc).
Qed.

Lemma reconstruct_path_cycle_hangs_witness :
  reconstruct_path 1000
    ({[ "A" := Some "B"; "B" := Some "A" ]} : prev_map) "C" "A"
  = OutOfFuel.
Proof.
  apply (reconstruct_path_cycle_hangs _ "C" "A" "A" 1000).
  - apply rtc_refl.
  - apply (tc_l _ "A" "B" "A"); [by split|].
    apply tc_once. by split.
Defined.

(** ** The console program *)

Example main_route :
  main 20 "Dworzec Glowny" "Ostrów Tumski"
  = Ok ["Доступні зупинки:";
        " - Dworzec Glowny"; " - Galeria Dominikanska";
        " - Ostrów Tumski"; " - Rynek";
        newline +:+ "Початкова зупинка: "; "Кінцева зупинка: ";
        newline +:+ "Найшвидший маршрут: "
          +:+ "Dworzec Glowny -> Galeria Dominikanska -> Ostrów Tumski";
        "Час у дорозі: 11 хв"].
Proof. vm_compute. reflexivity. Qed.

Lemma dijkstra_with_paths_mono fuel fuel' g s r :
  dijkstra_with_paths fuel g s = Ok r → (fuel ≤ fuel')%nat →
  dijkstra_with_paths fuel' g s = Ok r.
Proof.
  unfold dijkstra_with_paths, dijkstra_run.
  intros (st & Hrun & Hr)%bind_Ok Hle.
  by rewrite (dijkstra_loop_mono _ _ _ _ Hrun Hle).
Qed.

Lemma shortest_unique g s v d1 d2 :
  shortest g s v d1 → shortest g s v d2 → d1 = d2.
Proof. intros [H1 M1] [H2 M2]. specialize (M1 _ H2). specialize (M2 _ H1). lia. Qed.

Lemma main_with_unknown g fuel start target :
  adj g !! start = None ∨ adj g !! target = None →
  main_with g fuel start target = Ok (prologue g ++ [msg_missing]).
Proof. intros H. unfold main_with. by rewrite decide_True. Qed.

(** A predecessor chain visits vertices of the graph, none twice, so it is
    no longer than the graph has vertices. *)
Lemma chain_length_bound g start sd c0 st target l :
  Inv g start sd c0 [] st → is_Some (adj g !! target) →
  NoDup (target :: l) → (∀ x, x ∈ l → x ∈ sd) →
  (length (target :: l) ≤ size (dom (adj g)))%nat.
Proof.
  intros HI Ht Hnd Hsd.
  change (size (dom (adj g))) with (length (elements (dom (adj g)))).
  apply submseteq_length, NoDup_submseteq; [done|].
  intros x [->|Hx]%elem_of_cons; apply elem_of_elements, elem_of_dom; [done|].
  destruct (inv_settled _ _ _ _ _ _ HI x (Hsd x Hx)) as (dx & Hdx & _).
  apply (inv_dom_dist _ _ _ _ _ _ HI). eauto.
Qed.

(** With two known stops the program prints the route of least weight and
    that weight, or the no-route message when the target is out of reach. *)
Lemma main_with_known g fuel start target :
  graph_wf g → nonneg g →
  is_Some (adj g !! start) → is_Some (adj g !! target) →
  (num_entries g < fuel)%nat → (size (dom (adj g)) ≤ fuel)%nat →
  ∃ tail,
    main_with g fuel start target = Ok (prologue g ++ tail)
    ∧ ((¬ reachable g start target ∧ tail = [msg_no_route start target])
       ∨ ∃ d path,
           shortest g start target d
           ∧ tail = [msg_route path; msg_time (Fin d)]
           ∧ head path = Some start ∧ last path = Some target
           ∧ path_weight g path = Some d).
Proof.
  intros Hwf Hnn Hs Ht Hf1 Hf2.
  destruct (dijkstra_with_paths_final g start Hwf Hnn Hs)
    as (st & sd & c & HI & Hempty & _ & Huniq).
  assert (Hrun : dijkstra_with_paths fuel g start = Ok (dist st, prev st)).
  { destruct (dijkstra_loop_bounded g start Hwf Hnn fuel (init_state g start)
                ∅ start) as [st' Hst'].
    - by apply init_inv.
    - rewrite remaining_empty. simpl. lia.
    - assert (Hr : dijkstra_with_paths fuel g start
                   = Ok (dist st', prev st')).
      { unfold dijkstra_with_paths, dijkstra_run. by rewrite Hst'. }
      destruct (Huniq _ _ _ Hr) as [<- <-]. done. }
  assert (Hkn : ¬ (adj g !! start = None ∨ adj g !! target = None)).
  { intros [H|H]; rewrite H in *; by eapply is_Some_None. }
  unfold main_with. rewrite decide_False, Hrun by done.
  cbn [mbind result_bind snd fst].
  destruct (final_cases _ _ _ _ _ HI Hempty target Ht)
    as [(d & Hd & Hsh)|(Hd & Hp & Hnr)].
  - destruct (inv_chain _ _ _ _ _ _ HI _ _ Hd) as (l & Hc & Hnd & Hsd).
    pose proof (chain_length_bound _ _ _ _ _ _ _ HI Ht Hnd Hsd) as Hlen.
    exists [msg_route (reverse (target :: l)); msg_time (Fin d)].
    split.
    + rewrite (reconstruct_path_chain _ _ _ _ fuel Hc) by lia.
      cbn [mbind result_bind]. rewrite decide_False.
      * rewrite Hd. by rewrite decide_False.
      * intros Hnil%(f_equal length). by rewrite length_reverse in Hnil.
    + right. exists d, (reverse (target :: l)). split_and!; [done..| | |].
      * rewrite head_reverse. by eapply pred_chain_last.
      * by rewrite last_reverse.
      * by eapply chain_path_weight.
  - exists [msg_no_route start target]. split; [|by left].
    assert (Hne : start ≠ target).
    { intros <-. destruct (inv_start _ _ _ _ _ _ HI) as [H0 _]. congruence. }
    unfold reconstruct_path.
    rewrite decide_False, Hp by done. cbn [mbind result_bind].
    by rewrite decide_True.
Qed.

Lemma walk_trans g s u t d1 d2 :
  walk g s u d1 → walk g u t d2 → walk g s t (d1 + d2).
Proof.
  intros H1. induction 1 as [|x t d w _ IH He].
  - by replace (d1 + 0) with d1 by lia.
  - replace (d1 + (d + w)) with (d1 + d + w) by lia. by eapply walk_step.
Qed.

Lemma edge_reachable g u v w : edge g u v w → reachable g u v.
Proof. intros He. exists (0 + w). eapply walk_step; [constructor|done]. Qed.

(** Every stop of the transport graph is a neighbour of
    "Galeria Dominikanska" or is that stop. *)
Lemma transport_graph_connected s t :
  is_Some (adj build_transport_graph !! s) →
  is_Some (adj build_transport_graph !! t) →
  reachable build_transport_graph s t.
Proof.
  assert (∀ x, is_Some (adj build_transport_graph !! x) →
            x ∈ ["Dworzec Glowny"; "Rynek"; "Galeria Dominikanska";
                 "Ostrów Tumski"]) as Hstops.
  { intros x Hx%elem_of_dom%elem_of_elements.
    set (l := elements (dom (adj build_transport_graph))) in Hx.
    vm_compute in l. subst l.
    rewrite !elem_of_cons, elem_of_nil in Hx.
    rewrite !elem_of_cons, elem_of_nil. tauto. }
  assert (Hadj : adj build_transport_graph !! "Galeria Dominikanska"
                 = Some [("Dworzec Glowny", 5); ("Rynek", 4);
                         ("Ostrów Tumski", 6)])
    by (vm_compute; reflexivity).
  assert (Hfrom : ∀ x, is_Some (adj build_transport_graph !! x) →
            reachable build_transport_graph "Galeria Dominikanska" x).
  { intros x Hx%Hstops. rewrite !elem_of_cons, elem_of_nil in Hx.
    destruct Hx as [->|[->|[->|[->|[]]]]].
    - apply (edge_reachable _ _ _ 5). eexists. split; [exact Hadj|].
      apply list_elem_of_here.
    - apply (edge_reachable _ _ _ 4). eexists. split; [exact Hadj|].
      apply list_elem_of_further, list_elem_of_here.
    - exists 0. constructor.
    - apply (edge_reachable _ _ _ 6). eexists. split; [exact Hadj|].
      do 2 apply list_elem_of_further. apply list_elem_of_here. }
  assert (Hsym : ∀ u v w, edge build_transport_graph u v w →
            edge build_transport_graph v u w).
  { apply built_undirected_edge_sym. repeat constructor. }
  intros [d1 H1]%Hfrom [d2 H2]%Hfrom. exists (d1 + d2).
  eapply walk_trans; [|done]. by apply walk_reverse.
Qed.

(** X15: whatever two stops are entered, the console program does not
    fail: with a stop that is not in the graph it prints the missing-stop
    message after the list of stops and the prompts; with two stops of the
    graph it prints a route from the first to the second whose weight is the
    least possible, and that weight. *)
Theorem main_report (fuel : nat) (start target : string) :
  (11 ≤ fuel)%nat →
  ∃ tail,
    main fuel start target = Ok (prologue build_transport_graph ++ tail)
    ∧ (((adj build_transport_graph !! start = None
         ∨ adj build_transport_graph !! target = None)
        ∧ tail = [msg_missing])
       ∨ (is_Some (adj build_transport_graph !! start)
          ∧ is_Some (adj build_transport_graph !! target)
          ∧ ∃ d path,
              shortest build_transport_graph start target d
              ∧ tail = [msg_route path; msg_time (Fin d)]
              ∧ head path = Some start ∧ last path = Some target
              ∧ path_weight build_transport_graph path = Some d)).
Proof.
  intros Hf. unfold main.
  destruct (adj build_transport_graph !! start) as [es|] eqn:Hs.
  2:{ exists [msg_missing]. split; [|left; auto].
      apply main_with_unknown. left. done. }
  destruct (adj build_transport_graph !! target) as [et|] eqn:Ht.
  2:{ exists [msg_missing]. split; [|left; auto].
      apply main_with_unknown. right. done. }
  destruct (main_with_known build_transport_graph fuel start target)
    as (tail & Hrun & Htail).
  - apply (bool_decide_unpack _). vm_compute. exact I.
  - apply (bool_decide_unpack _). vm_compute. exact I.
  - by rewrite Hs.
  - by rewrite Ht.
  - eapply Nat.lt_le_trans; [|exact Hf]. vm_compute. lia.
  - etrans; [|exact Hf]. vm_compute. lia.
  - exists tail. split; [done|]. right.
    destruct Htail as [[Hnr _]|Hroute]; [|eauto].
    destruct Hnr. apply transport_graph_connected; [by rewrite Hs|by rewrite Ht].
Qed.

Lemma main_report_witness :
  ∃ tail,
    main 11 "Rynek" "Zoo" = Ok (prologue build_transport_graph ++ tail)
    ∧ (((adj build_transport_graph !! "Rynek" = None
         ∨ adj build_transport_graph !! "Zoo" = None)
        ∧ tail = [msg_missing])
       ∨ (is_Some (adj build_transport_graph !! "Rynek")
          ∧ is_Some (adj build_transport_graph !! "Zoo")
          ∧ ∃ d path,
              shortest build_transport_graph "Rynek" "Zoo" d
              ∧ tail = [msg_route path; msg_time (Fin d)]
              ∧ head path = Some "Rynek" ∧ last path = Some "Zoo"
              ∧ path_weight build_transport_graph path = Some d)).
Proof. apply (main_report 11 "Rynek" "Zoo"). lia. Defined.

(** ** More on the returned maps *)



(** X17: on the predecessor map the engine returns, the route
    reconstruction raises exactly when the target is not a vertex of the
    graph and differs from [start]. *)
Theorem dijkstra_route_KeyError_iff (g : Graph) (start target : string)
    (fuel : nat) (dm : dist_map) (pm : prev_map) :
  graph_wf g → nonneg g → is_Some (adj g !! start) →
  dijkstra_with_paths fuel g start = Ok (dm, pm) →
  (∃ fuel' k, reconstruct_path fuel' pm start target = KeyError k)
  ↔ start ≠ target ∧ adj g !! target = None.
Proof.
  intros Hwf Hnn Hs Hrun.
  destruct (dijkstra_with_paths_final g start Hwf Hnn Hs)
    as (st & sd & c & HI & Hempty & _ & Huniq).
  destruct (Huniq _ _ _ Hrun) as [_ ->].
  rewrite reconstruct_path_dangling.
  rewrite dangling_closed by by eapply final_closed_prev.
  pose proof (inv_dom_prev _ _ _ _ _ _ HI target) as Hdom.
  split; intros [Hne Hnone]; (split; [done|]);
    apply eq_None_not_Some; intros Hsome.
  - apply Hdom in Hsome. rewrite Hnone in Hsome. by eapply is_Some_None.
  - apply Hdom in Hsome. rewrite Hnone in Hsome. by eapply is_Some_None.
Qed.

Lemma dijkstra_route_KeyError_iff_witness :
  ∃ dm pm,
    dijkstra_with_paths 20 triangle_graph "A" = Ok (dm, pm)
    ∧ ((∃ fuel' k, reconstruct_path fuel' pm "A" "Z" = KeyError k)
       ↔ "A" ≠ "Z" ∧ adj triangle_graph !! "Z" = None).
Proof.
  eexists _, _. split; [vm_compute; reflexivity|].
  eapply (dijkstra_route_KeyError_iff triangle_graph "A" "Z" 20 _ _).
  - apply (bool_decide_unpack _). vm_compute. exact I.
  - apply (bool_decide_unpack _). vm_compute. exact I.
  - vm_compute. eexists. reflexivity.
  - vm_compute. reflexivity.
Defined.
